(** * transaction_executor.py: a lock-protected ledger and its block executor

    Shallow embedding of [src/transaction_executor.py].

    - Python [int] is unbounded, so balances and deltas live in [Z].
    - [AccountState.accounts] is a Python [dict]; its iteration order is the
      insertion order of its keys and the result of [execute_block] exposes
      that order, so the dictionary is an association list with the
      insertion-order discipline written out in [Dict.set].
    - Every method body of [AccountState] runs under [self._lock]; a critical
      section is therefore one atomic transition of the shared mapping.  The
      worker pool of [execute_block] is the interleaving of these
      transitions, chosen by a schedule. *)

From Stdlib Require Import ZArith List String Bool Lia.
Import ListNotations.

Local Open Scope string_scope.
Local Open Scope list_scope.
Local Open Scope Z_scope.

(** ** Python dictionaries with string keys and integer values *)

Module Dict.

Definition t := list (string * Z).

(** [d.get(k, default)] *)
Fixpoint get (d : t) (k : string) (default : Z) : Z :=
  match d with
  | [] => default
  | (k', v) :: rest => if String.eqb k' k then v else get rest k default
  end.

(** [k in d] *)
Fixpoint mem (d : t) (k : string) : bool :=
  match d with
  | [] => false
  | (k', _) :: rest => if String.eqb k' k then true else mem rest k
  end.

(** [d[k] = v]: an existing key keeps its position, a new key goes last. *)
Fixpoint set (d : t) (k : string) (v : Z) : t :=
  match d with
  | [] => [(k, v)]
  | (k', v') :: rest =>
      if String.eqb k' k then (k', v) :: rest else (k', v') :: set rest k v
  end.

(** [d.items()] and [d.keys()], in iteration order. *)
Definition items (d : t) : list (string * Z) := d.
Definition keys (d : t) : list string := map fst d.

(** Sum of the stored values. *)
Definition total (d : t) : Z := fold_right Z.add 0 (map snd d).

(** Every stored value is non-negative. *)
Definition nonneg (d : t) : Prop := Forall (fun kv => 0 <= snd kv) d.

Definition nonnegb (d : t) : bool := forallb (fun kv => 0 <=? snd kv) d.

End Dict.

(** ** Value objects *)

Record AccountValue := mkAccountValue { value_name : string; balance : Z }.

Record AccountUpdate := mkAccountUpdate { name : string; balance_change : Z }.

(** What a Python call hands back to its caller, as far as this program
    needs it: [None] or a [bool]. *)
Inductive PyValue :=
| PyNone
| PyBool (b : bool).

(** ** AccountState *)

(** The state of an [AccountState] object is its [accounts] mapping; the lock
    carries no data. *)
Definition AccountState := Dict.t.

(** [AccountState.get_account] *)
Definition get_account (st : AccountState) (n : string) : AccountValue :=
  mkAccountValue n (Dict.get st n 0).

(** First loop of [execute_updates]: [false] is the early [return]. *)
Fixpoint validate (st : AccountState) (updates : list AccountUpdate) : bool :=
  match updates with
  | [] => true
  | update :: rest =>
      let current_balance := Dict.get st (name update) 0 in
      if current_balance + balance_change update <? 0 then false
      else validate st rest
  end.

(** Body of the second loop of [execute_updates]. *)
Definition apply_update (st : AccountState) (update : AccountUpdate) : AccountState :=
  if Dict.mem st (name update)
  then Dict.set st (name update) (Dict.get st (name update) 0 + balance_change update)
  else Dict.set st (name update) (Z.max 0 (balance_change update)).

Definition apply_updates (st : AccountState) (updates : list AccountUpdate) : AccountState :=
  fold_left apply_update updates st.

(** [AccountState.execute_updates]: the mapping afterwards and the value
    returned.  The early [return] carries no expression and the function
    body ends without a [return], so both paths hand back [None]. *)
Definition execute_updates (st : AccountState) (updates : list AccountUpdate)
  : AccountState * PyValue :=
  if validate st updates
  then (apply_updates st updates, PyNone)
  else (st, PyNone).

(** A caller of the two public methods. *)
Inductive Call :=
| CallGetAccount (n : string)
| CallExecuteUpdates (updates : list AccountUpdate).

Definition do_call (st : AccountState) (c : Call) : AccountState :=
  match c with
  | CallGetAccount _ => st
  | CallExecuteUpdates updates => fst (execute_updates st updates)
  end.

Definition do_calls (st : AccountState) (cs : list Call) : AccountState :=
  fold_left do_call cs st.

(** ** Transactions *)

(** [Transaction] is an abstract base whose only subclass is [Transfer]. *)
Inductive Transaction :=
| Transfer (from_acc to_acc : string) (value : Z).

(** [Transfer.updates] *)
Definition updates (t : Transaction) (st : AccountState)
  : list AccountUpdate * bool :=
  match t with
  | Transfer from_acc to_acc value =>
      let from_account := get_account st from_acc in
      if balance from_account <? value then ([], false)
      else ([mkAccountUpdate from_acc (- value); mkAccountUpdate to_acc value], true)
  end.

Definition Block := list Transaction.

(** ** execute_block *)

(** The dict comprehension that builds the initial mapping. *)
Definition dict_of_values (values : list AccountValue) : Dict.t :=
  fold_left (fun d av => Dict.set d (value_name av) (balance av)) values [].

(** The list comprehension that reads the mapping back. *)
Definition values_of_dict (d : Dict.t) : list AccountValue :=
  map (fun kv => mkAccountValue (fst kv) (snd kv)) (Dict.items d).

(** [process_transaction], run without interruption. *)
Definition process_transaction (st : AccountState) (t : Transaction) : AccountState :=
  let '(ups, success) := updates t st in
  if success then fst (execute_updates st ups) else st.

(** A task of the pool is a call of [process_transaction].  It takes the lock
    twice: once inside [updates] (through [get_account]) and, when the
    proposal is feasible, once inside [execute_updates].  Between the two the
    task only holds its own list of updates. *)
Inductive Task :=
| Pending (t : Transaction)
| Proposed (ups : list AccountUpdate)
| Finished.

Record Pool := mkPool { state : AccountState; tasks : list Task }.

Fixpoint set_task (ts : list Task) (i : nat) (x : Task) : list Task :=
  match ts, i with
  | [], _ => []
  | _ :: rest, O => x :: rest
  | y :: rest, S j => y :: set_task rest j x
  end.

(** One critical section of task [i]; a finished or missing task does
    nothing. *)
Definition step (p : Pool) (i : nat) : Pool :=
  match nth_error (tasks p) i with
  | Some (Pending t) =>
      let '(ups, success) := updates t (state p) in
      mkPool (state p) (set_task (tasks p) i (if success then Proposed ups else Finished))
  | Some (Proposed ups) =>
      mkPool (fst (execute_updates (state p) ups)) (set_task (tasks p) i Finished)
  | Some Finished | None => p
  end.

(** A schedule names, in order, the task that enters its next critical
    section. *)
Definition run (p : Pool) (schedule : list nat) : Pool :=
  fold_left step schedule p.

Definition is_finished (x : Task) : bool :=
  match x with Finished => true | _ => false end.

Definition all_finished (p : Pool) : bool := forallb is_finished (tasks p).

Definition start (block : Block) (values : list AccountValue) : Pool :=
  mkPool (dict_of_values values) (map Pending block).

(** [execute_block] under a schedule.  Leaving the [with ThreadPoolExecutor]
    block joins every task, so there is a result only when the schedule has
    run every task to its end. *)
Definition execute_block (schedule : list nat) (block : Block)
  (values : list AccountValue) : option (list AccountValue) :=
  let p := run (start block values) schedule in
  if all_finished p then Some (values_of_dict (state p)) else None.

(** The schedule in which each task runs to completion in block order. *)
Definition in_order (n : nat) : list nat :=
  flat_map (fun i => [i; i]) (seq 0 n).

(** Names that a step appends to the mapping, in the order of creation. *)
Definition created_by_update (st : AccountState) (update : AccountUpdate) : list string :=
  if Dict.mem st (name update) then [] else [name update].

Fixpoint created_by_updates (st : AccountState) (ups : list AccountUpdate) : list string :=
  match ups with
  | [] => []
  | u :: rest => created_by_update st u ++ created_by_updates (apply_update st u) rest
  end.

Definition created_by_step (p : Pool) (i : nat) : list string :=
  match nth_error (tasks p) i with
  | Some (Proposed ups) =>
      if validate (state p) ups then created_by_updates (state p) ups else []
  | _ => []
  end.

Fixpoint created_by_run (p : Pool) (schedule : list nat) : list string :=
  match schedule with
  | [] => []
  | i :: rest => created_by_step p i ++ created_by_run (step p i) rest
  end.

(** Names of a list, each kept at its first occurrence; [seen] holds the
    names already listed. *)
Fixpoint first_occurrences (seen : list string) (l : list string) : list string :=
  match l with
  | [] => []
  | x :: rest =>
      if existsb (fun y => String.eqb y x) seen then first_occurrences seen rest
      else x :: first_occurrences (seen ++ [x]) rest
  end.

(** The batches that [Transfer.updates] proposes, and pools whose waiting
    tasks hold only such batches over a mapping without negative balance. *)
Definition transfer_batch (ups : list AccountUpdate) : Prop :=
  exists (f t : string) (v : Z),
    ups = [mkAccountUpdate f (- v); mkAccountUpdate t v].

Definition task_ok (x : Task) : Prop :=
  match x with
  | Proposed ups => transfer_batch ups
  | Pending _ | Finished => True
  end.

Definition pool_ok (p : Pool) : Prop :=
  Dict.nonneg (state p) /\ Forall task_ok (tasks p).

(** ** The data of the first test case *)

Definition account_values_example_1 : list AccountValue :=
  [mkAccountValue "A" 20; mkAccountValue "B" 30; mkAccountValue "C" 40].

Definition block_example_1 : Block :=
  [Transfer "A" "B" 5; Transfer "B" "C" 10; Transfer "B" "C" 30].

Definition expected_output_1 : list AccountValue :=
  [mkAccountValue "A" 15; mkAccountValue "B" 25; mkAccountValue "C" 50].

(** ** Small ledgers and batches used to exercise the statements below *)

Definition funded_ledger : AccountState := [("A", 5); ("B", 1)].

(** Two debits of the same account, each covered by the stored balance on
    its own. *)
Definition double_debit : list AccountUpdate :=
  [mkAccountUpdate "A" (-5); mkAccountUpdate "A" (-5)].

(** A schedule of the first test case in which the task of the third
    transfer takes the lock before the other two. *)
Definition third_first : list nat := [2; 2; 0; 0; 1; 1]%nat.

(** Two transfers to accounts that do not exist yet, and a schedule that
    runs the second one first. *)
Definition block_new_accounts : Block :=
  [Transfer "A" "D" 5; Transfer "B" "E" 1].

Definition second_first : list nat := [1; 1; 0; 0]%nat.

(** ** The data of the second test case *)

Definition account_values_example_2 : list AccountValue :=
  [mkAccountValue "A" 10; mkAccountValue "B" 20; mkAccountValue "C" 30;
   mkAccountValue "D" 40].

Definition block_example_2 : Block :=
  [Transfer "A" "B" 5; Transfer "C" "D" 10].

Definition expected_output_2 : list AccountValue :=
  [mkAccountValue "A" 5; mkAccountValue "B" 25; mkAccountValue "C" 20;
   mkAccountValue "D" 50].

(** ** test_case *)

(** How a call of [test_case] ends: it returns, an [assert] fails, or
    [expected_output[index]] is out of range. *)
Inductive TestOutcome :=
| Passed
| AssertionError
| IndexError.

(** The loop [for index, account_value in enumerate(actual_results)], from
    position [index] on.  The name is compared first; the subscript
    [expected_output[index]] is evaluated before either comparison. *)
Fixpoint check_from (index : nat) (actual_results expected_output : list AccountValue)
  : TestOutcome :=
  match actual_results with
  | [] => Passed
  | account_value :: rest =>
      match nth_error expected_output index with
      | None => IndexError
      | Some expected =>
          if String.eqb (value_name account_value) (value_name expected)
          then if balance account_value =? balance expected
               then check_from (S index) rest expected_output
               else AssertionError
          else AssertionError
      end
  end.

(** [test_case], under the schedule of its call of [execute_block]. *)
Definition test_case (schedule : list nat) (blocks : Block)
  (account_values expected_output : list AccountValue) : option TestOutcome :=
  match execute_block schedule blocks account_values with
  | Some actual_results => Some (check_from 0 actual_results expected_output)
  | None => None
  end.

(** ** Sums of the deltas of a batch *)

(** The deltas that a batch holds for the account [k], added up. *)
Fixpoint delta_for (k : string) (ups : list AccountUpdate) : Z :=
  match ups with
  | [] => 0
  | u :: rest =>
      (if String.eqb (name u) k then balance_change u else 0) + delta_for k rest
  end.

(** All deltas of a batch, added up. *)
Definition delta_sum (ups : list AccountUpdate) : Z :=
  fold_right Z.add 0 (map balance_change ups).

(** The names a block mentions. *)
Definition block_names (block : Block) : list string :=
  flat_map (fun t => match t with Transfer f d _ => [f; d] end) block.

(** The names a task may still write to. *)
Definition task_names (x : Task) : list string :=
  match x with
  | Pending (Transfer f d _) => [f; d]
  | Proposed ups => map name ups
  | Finished => []
  end.

(** The states of the second test case: which of its two tasks has applied
    its batch decides the mapping. *)
Definition ledger_B (first_done second_done : bool) : AccountState :=
  [("A", if first_done then 5 else 10); ("B", if first_done then 25 else 20);
   ("C", if second_done then 20 else 30); ("D", if second_done then 50 else 40)].

Definition pools_B : list Pool :=
  let t0 := Transfer "A" "B" 5 in
  let t1 := Transfer "C" "D" 10 in
  let u0 := [mkAccountUpdate "A" (-5); mkAccountUpdate "B" 5] in
  let u1 := [mkAccountUpdate "C" (-10); mkAccountUpdate "D" 10] in
  [ mkPool (ledger_B false false) [Pending t0; Pending t1];
    mkPool (ledger_B false false) [Pending t0; Proposed u1];
    mkPool (ledger_B false true) [Pending t0; Finished];
    mkPool (ledger_B false false) [Proposed u0; Pending t1];
    mkPool (ledger_B false false) [Proposed u0; Proposed u1];
    mkPool (ledger_B false true) [Proposed u0; Finished];
    mkPool (ledger_B true false) [Finished; Pending t1];
    mkPool (ledger_B true false) [Finished; Proposed u1];
    mkPool (ledger_B true true) [Finished; Finished] ].

(** Pools in which another task takes the lock between the two critical
    sections of a transfer. *)
Definition pool_credit_between : Pool :=
  mkPool funded_ledger [Pending (Transfer "A" "N" 4); Pending (Transfer "B" "A" 1)].

Definition pool_double_spend : Pool :=
  mkPool [("A", 5)] [Pending (Transfer "A" "B" 5); Pending (Transfer "A" "C" 5)].

Definition pool_zero_transfer : Pool :=
  mkPool funded_ledger [Pending (Transfer "X" "Y" 0); Pending (Transfer "A" "Y" 2)].

(** ** Facts about dictionaries *)

Module DictFacts.
Import Dict.

Lemma get_set_same (d : t) (k : string) (v x : Z) :
  get (set d k v) k x = v.
Proof.
  induction d as [|[k' v'] rest IH]; simpl.
  - now rewrite String.eqb_refl.
  - destruct (String.eqb k' k) eqn:E; simpl; rewrite E; auto.
Qed.

Lemma get_set_other (d : t) (k k' : string) (v x : Z) :
  k <> k' -> get (set d k v) k' x = get d k' x.
Proof.
  intros Hne.
  induction d as [|[k0 v0] rest IH]; simpl.
  - apply String.eqb_neq in Hne. now rewrite Hne.
  - destruct (String.eqb k0 k) eqn:E; simpl.
    + apply String.eqb_eq in E. subst k0.
      apply String.eqb_neq in Hne. now rewrite Hne.
    + now rewrite IH.
Qed.

Lemma mem_set_same (d : t) (k : string) (v : Z) :
  mem (set d k v) k = true.
Proof.
  induction d as [|[k' v'] rest IH]; simpl.
  - now rewrite String.eqb_refl.
  - destruct (String.eqb k' k) eqn:E; simpl; rewrite E; auto.
Qed.

Lemma mem_set_other (d : t) (k k' : string) (v : Z) :
  k <> k' -> mem (set d k v) k' = mem d k'.
Proof.
  intros Hne.
  induction d as [|[k0 v0] rest IH]; simpl.
  - apply String.eqb_neq in Hne. now rewrite Hne.
  - destruct (String.eqb k0 k) eqn:E; simpl.
    + reflexivity.
    + now rewrite IH.
Qed.

Lemma mem_false_get (d : t) (k : string) (x : Z) :
  mem d k = false -> get d k x = x.
Proof.
  induction d as [|[k' v'] rest IH]; simpl; auto.
  destruct (String.eqb k' k); [discriminate | auto].
Qed.

Lemma mem_keys (d : t) (k : string) :
  mem d k = true <-> In k (keys d).
Proof.
  induction d as [|[k' v'] rest IH]; simpl.
  - split; [discriminate | tauto].
  - destruct (String.eqb_spec k' k) as [->|Hne].
    + split; auto.
    + rewrite IH. split; [auto | intros [?|?]; [contradiction | auto]].
Qed.

(** Assignment never moves a key: an existing key stays where it is and a
    new one goes to the end. *)
Lemma keys_set (d : t) (k : string) (v : Z) :
  keys (set d k v) = if mem d k then keys d else keys d ++ [k].
Proof.
  induction d as [|[k' v'] rest IH]; simpl; auto.
  destruct (String.eqb k' k) eqn:E; simpl; auto.
  rewrite IH. now destruct (mem rest k).
Qed.

Lemma total_app (d1 d2 : t) : total (d1 ++ d2) = total d1 + total d2.
Proof.
  unfold total. induction d1 as [|[k v] rest IH]; simpl in *; lia.
Qed.

Lemma total_set (d : t) (k : string) (v : Z) :
  total (set d k v) = total d - get d k 0 + v.
Proof.
  induction d as [|[k' v'] rest IH]; simpl.
  - unfold total; simpl; lia.
  - destruct (String.eqb k' k); unfold total in *; simpl in *; lia.
Qed.

Lemma nonneg_set (d : t) (k : string) (v : Z) :
  nonneg d -> 0 <= v -> nonneg (set d k v).
Proof.
  unfold nonneg. intros Hd Hv.
  induction Hd as [|[k' v'] rest Hx Hrest IH]; simpl.
  - constructor; auto.
  - destruct (String.eqb k' k); constructor; auto.
Qed.

Lemma nonneg_get (d : t) (k : string) (x : Z) :
  nonneg d -> 0 <= x -> 0 <= get d k x.
Proof.
  unfold nonneg. intros Hd Hx.
  induction Hd as [|[k' v'] rest Hv Hrest IH]; simpl; auto.
  destruct (String.eqb k' k); auto.
Qed.

Lemma nonnegb_spec (d : t) : nonnegb d = true <-> nonneg d.
Proof.
  unfold nonnegb, nonneg. rewrite forallb_forall, Forall_forall.
  split; intros H kv Hin; specialize (H kv Hin); lia.
Qed.

End DictFacts.

(** ** The two loops of [execute_updates] *)

Lemma validate_true_iff (st : AccountState) (ups : list AccountUpdate) :
  validate st ups = true <->
  Forall (fun u => 0 <= Dict.get st (name u) 0 + balance_change u) ups.
Proof.
  induction ups as [|u rest IH]; simpl.
  - split; auto.
  - destruct (Z.ltb_spec (Dict.get st (name u) 0 + balance_change u) 0) as [Hlt|Hge].
    + split; [discriminate|]. intros H. inversion H; subst. lia.
    + rewrite IH. split.
      * intros H. constructor; auto.
      * intros H. now inversion H.
Qed.

Lemma validate_false_iff (st : AccountState) (ups : list AccountUpdate) :
  validate st ups = false <->
  Exists (fun u => Dict.get st (name u) 0 + balance_change u < 0) ups.
Proof.
  induction ups as [|u rest IH]; simpl.
  - split; [discriminate|]. intros H. inversion H.
  - destruct (Z.ltb_spec (Dict.get st (name u) 0 + balance_change u) 0) as [Hlt|Hge].
    + split; auto.
    + rewrite IH. split.
      * intros H. now apply Exists_cons_tl.
      * intros H. inversion H; subst; [lia | assumption].
Qed.


Lemma execute_updates_valid (st : AccountState) (ups : list AccountUpdate) :
  validate st ups = true -> fst (execute_updates st ups) = apply_updates st ups.
Proof. unfold execute_updates. now intros ->. Qed.

Lemma execute_updates_invalid (st : AccountState) (ups : list AccountUpdate) :
  validate st ups = false -> fst (execute_updates st ups) = st.
Proof. unfold execute_updates. now intros ->. Qed.

(** What one pass of the second loop does to the account it names and to
    every other account. *)
Lemma apply_update_existing (st : AccountState) (u : AccountUpdate) :
  Dict.mem st (name u) = true ->
  Dict.get (apply_update st u) (name u) 0
  = Dict.get st (name u) 0 + balance_change u.
Proof.
  intros H. unfold apply_update. rewrite H. apply DictFacts.get_set_same.
Qed.

Lemma apply_update_missing (st : AccountState) (u : AccountUpdate) :
  Dict.mem st (name u) = false ->
  Dict.get (apply_update st u) (name u) 0 = Z.max 0 (balance_change u).
Proof.
  intros H. unfold apply_update. rewrite H. apply DictFacts.get_set_same.
Qed.

Lemma apply_update_mem (st : AccountState) (u : AccountUpdate) :
  Dict.mem (apply_update st u) (name u) = true.
Proof.
  unfold apply_update. destruct (Dict.mem st (name u)); apply DictFacts.mem_set_same.
Qed.

Lemma apply_update_other (st : AccountState) (u : AccountUpdate) (k : string) (x : Z) :
  name u <> k ->
  Dict.get (apply_update st u) k x = Dict.get st k x
  /\ Dict.mem (apply_update st u) k = Dict.mem st k.
Proof.
  intros H. unfold apply_update.
  destruct (Dict.mem st (name u));
    split; auto using DictFacts.get_set_other, DictFacts.mem_set_other.
Qed.

Lemma apply_update_keys (st : AccountState) (u : AccountUpdate) :
  Dict.keys (apply_update st u) = Dict.keys st ++ created_by_update st u.
Proof.
  unfold apply_update, created_by_update.
  destruct (Dict.mem st (name u)) eqn:E; rewrite DictFacts.keys_set, E.
  - now rewrite app_nil_r.
  - reflexivity.
Qed.

Lemma apply_update_total (st : AccountState) (u : AccountUpdate) :
  Dict.total (apply_update st u)
  = Dict.total st
    + (if Dict.mem st (name u) then balance_change u else Z.max 0 (balance_change u)).
Proof.
  unfold apply_update.
  destruct (Dict.mem st (name u)) eqn:E; rewrite DictFacts.total_set.
  - lia.
  - rewrite (DictFacts.mem_false_get _ _ _ E). lia.
Qed.

(** ** Return value of [execute_updates] *)

(** C2, as stated, fails: a batch that is applied does not make
    [execute_updates] return [True], and a batch that is rejected does not
    make it return [False]. *)
Lemma execute_updates_returns_no_bool :
  validate funded_ledger [mkAccountUpdate "A" 1] = true
  /\ snd (execute_updates funded_ledger [mkAccountUpdate "A" 1]) <> PyBool true
  /\ validate funded_ledger [mkAccountUpdate "A" (-6)] = false
  /\ snd (execute_updates funded_ledger [mkAccountUpdate "A" (-6)]) <> PyBool false.
Proof. repeat split; try reflexivity; discriminate. Qed.

(** C2, amended: for every mapping and every batch, [execute_updates] hands
    [None] back to its caller, whether the batch was applied or rejected; the
    outcome shows only in the mapping, which is the result of the second loop
    when the first loop passed and is the old mapping otherwise. *)
Theorem execute_updates_returns_none (st : AccountState) (ups : list AccountUpdate) :
  snd (execute_updates st ups) = PyNone
  /\ fst (execute_updates st ups)
     = if validate st ups then apply_updates st ups else st.
Proof. unfold execute_updates. destruct (validate st ups); split; reflexivity. Qed.

(** ** Rejection of a batch *)

(** C3: if some update of the batch would take the stored balance of its
    account (0 when the account is absent) below zero, [execute_updates]
    leaves the whole mapping as it was. *)
Theorem execute_updates_rejects_whole_batch
  (st : AccountState) (ups : list AccountUpdate) :
  Exists (fun u => Dict.get st (name u) 0 + balance_change u < 0) ups ->
  fst (execute_updates st ups) = st.
Proof.
  intros H. apply execute_updates_invalid. now apply validate_false_iff.
Qed.

Lemma execute_updates_rejects_whole_batch_witness :
  Exists (fun u => Dict.get funded_ledger (name u) 0 + balance_change u < 0)
    [mkAccountUpdate "B" 3; mkAccountUpdate "A" (-6)]
  /\ fst (execute_updates funded_ledger
            [mkAccountUpdate "B" 3; mkAccountUpdate "A" (-6)]) = funded_ledger.
Proof.
  assert (H : Exists (fun u => Dict.get funded_ledger (name u) 0 + balance_change u < 0)
                [mkAccountUpdate "B" 3; mkAccountUpdate "A" (-6)]).
  { apply Exists_cons_tl, Exists_cons_hd. reflexivity. }
  split; [exact H | exact (execute_updates_rejects_whole_batch _ _ H)].
Defined.

(** ** [Transfer.updates] *)

Lemma Transfer_updates_none
  (from_acc to_acc : string) (value : Z) (st : AccountState) :
  Dict.get st from_acc 0 < value ->
  updates (Transfer from_acc to_acc value) st = ([], false).
Proof.
  intros H. unfold updates. simpl.
  destruct (Z.ltb_spec (Dict.get st from_acc 0) value); [reflexivity | lia].
Qed.

Lemma Transfer_updates_some
  (from_acc to_acc : string) (value : Z) (st : AccountState) :
  value <= Dict.get st from_acc 0 ->
  updates (Transfer from_acc to_acc value) st
  = ([mkAccountUpdate from_acc (- value); mkAccountUpdate to_acc value], true).
Proof.
  intros H. unfold updates. simpl.
  destruct (Z.ltb_spec (Dict.get st from_acc 0) value); [lia | reflexivity].
Qed.

(** C6: when the balance read for the source is strictly below the amount
    the proposal is the empty list with [False]; otherwise it is the debit of
    the source followed by the credit of the destination, with [True]. *)
Theorem Transfer_updates_cases
  (from_acc to_acc : string) (value : Z) (st : AccountState) :
  (balance (get_account st from_acc) < value ->
   updates (Transfer from_acc to_acc value) st = ([], false))
  /\ (~ balance (get_account st from_acc) < value ->
      updates (Transfer from_acc to_acc value) st
      = ([mkAccountUpdate from_acc (- value); mkAccountUpdate to_acc value], true)).
Proof.
  unfold updates.
  destruct (Z.ltb_spec (balance (get_account st from_acc)) value) as [Hlt|Hge];
    split; intros H; try reflexivity; lia.
Qed.

Lemma Transfer_updates_cases_witness :
  updates (Transfer "B" "A" 2) funded_ledger = ([], false)
  /\ updates (Transfer "A" "B" 5) funded_ledger
     = ([mkAccountUpdate "A" (-5); mkAccountUpdate "B" 5], true).
Proof.
  split.
  - apply (proj1 (Transfer_updates_cases "B" "A" 2 funded_ledger)).
    simpl. lia.
  - apply (proj2 (Transfer_updates_cases "A" "B" 5 funded_ledger)).
    simpl. lia.
Defined.

(** ** Tasks of the pool *)

Lemma nth_error_set_task_same (ts : list Task) (i : nat) (x y : Task) :
  nth_error ts i = Some y -> nth_error (set_task ts i x) i = Some x.
Proof.
  revert i. induction ts as [|z rest IH]; intros [|j] H; simpl in *;
    try discriminate; auto.
Qed.

Lemma set_task_middle (done rest : list Task) (x y : Task) :
  set_task (done ++ x :: rest) (List.length done) y = done ++ y :: rest.
Proof. induction done as [|z done IH]; simpl; [reflexivity | now rewrite IH]. Qed.

Lemma nth_error_middle (done rest : list Task) (x : Task) :
  nth_error (done ++ x :: rest) (List.length done) = Some x.
Proof. induction done as [|z done IH]; simpl; auto. Qed.

(** ** A transfer from an unknown account *)

(** C8: when the source of a transfer is absent from the mapping and the
    amount is strictly positive, the read of the source gives balance 0, the
    proposal is infeasible with no updates, and processing the transaction
    leaves the mapping as it was, both when the task runs uninterrupted and
    as a task of the pool, which is then finished. *)
Theorem unknown_source_transfer
  (st : AccountState) (from_acc to_acc : string) (value : Z) :
  Dict.mem st from_acc = false ->
  0 < value ->
  balance (get_account st from_acc) = 0
  /\ updates (Transfer from_acc to_acc value) st = ([], false)
  /\ process_transaction st (Transfer from_acc to_acc value) = st
  /\ forall (ts : list Task) (i : nat),
       nth_error ts i = Some (Pending (Transfer from_acc to_acc value)) ->
       state (step (mkPool st ts) i) = st
       /\ nth_error (tasks (step (mkPool st ts) i)) i = Some Finished.
Proof.
  intros Hmem Hpos.
  assert (Hread : balance (get_account st from_acc) = 0).
  { simpl. now apply DictFacts.mem_false_get. }
  assert (Hprop : updates (Transfer from_acc to_acc value) st = ([], false)).
  { apply Transfer_updates_none. simpl in Hread. lia. }
  repeat split; auto.
  - unfold process_transaction. now rewrite Hprop.
  - unfold step. simpl. rewrite H. now rewrite Hprop.
  - unfold step. simpl. rewrite H, Hprop. simpl.
    eapply nth_error_set_task_same; eauto.
Qed.

Lemma unknown_source_transfer_witness :
  balance (get_account funded_ledger "Z") = 0
  /\ updates (Transfer "Z" "A" 3) funded_ledger = ([], false)
  /\ process_transaction funded_ledger (Transfer "Z" "A" 3) = funded_ledger
  /\ forall (ts : list Task) (i : nat),
       nth_error ts i = Some (Pending (Transfer "Z" "A" 3)) ->
       state (step (mkPool funded_ledger ts) i) = funded_ledger
       /\ nth_error (tasks (step (mkPool funded_ledger ts) i)) i = Some Finished.
Proof.
  apply (unknown_source_transfer funded_ledger "Z" "A" 3).
  - reflexivity.
  - reflexivity.
Defined.

(** ** Validation looks at one update at a time *)

(** C10: the first loop accepts a batch exactly when every update, taken
    alone against the balance stored before the batch, stays at or above
    zero; so there are a mapping with no negative balance and a batch with
    two updates of one account that passes the first loop and leaves that
    account with a negative stored balance. *)
Theorem validation_ignores_earlier_updates :
  (forall (st : AccountState) (ups : list AccountUpdate),
      validate st ups = true <->
      Forall (fun u => 0 <= Dict.get st (name u) 0 + balance_change u) ups)
  /\ exists (st : AccountState) (u1 u2 : AccountUpdate),
       Dict.nonneg st
       /\ name u1 = name u2
       /\ validate st [u1; u2] = true
       /\ Dict.get (fst (execute_updates st [u1; u2])) (name u1) 0 < 0.
Proof.
  split.
  - apply validate_true_iff.
  - exists [("A", 5)], (mkAccountUpdate "A" (-5)), (mkAccountUpdate "A" (-5)).
    repeat split.
    repeat constructor. simpl. lia.
Qed.

(** ** Non-negative balances *)

(** C1 fails on the code: from a mapping whose balances are all
    non-negative, a read followed by one [execute_updates] call with the
    batch [double_debit] reaches a mapping that stores a negative balance. *)
Theorem double_debit_reaches_negative_balance :
  Dict.nonneg funded_ledger
  /\ do_calls funded_ledger [CallGetAccount "A"; CallExecuteUpdates double_debit]
     = [("A", -5); ("B", 1)]
  /\ ~ Dict.nonneg [("A", -5); ("B", 1)].
Proof.
  split; [|split].
  - apply DictFacts.nonnegb_spec. reflexivity.
  - reflexivity.
  - intros H. apply DictFacts.nonnegb_spec in H. discriminate.
Qed.

(** A batch that names every account at most once keeps all balances
    non-negative. *)
Lemma apply_updates_nonneg (ups : list AccountUpdate) :
  forall st st0 : AccountState,
    NoDup (map name ups) ->
    Dict.nonneg st ->
    (forall u, In u ups -> Dict.get st (name u) 0 = Dict.get st0 (name u) 0) ->
    validate st0 ups = true ->
    Dict.nonneg (apply_updates st ups).
Proof.
  induction ups as [|u rest IH]; intros st st0 Hnd Hst Hsame Hval; simpl; auto.
  simpl in Hnd. inversion Hnd as [|? ? Hnotin Hnd']; subst.
  simpl in Hval.
  destruct (Z.ltb_spec (Dict.get st0 (name u) 0 + balance_change u) 0) as [|Hge];
    [discriminate|].
  apply (IH _ st0); auto.
  - unfold apply_update. destruct (Dict.mem st (name u)).
    + apply DictFacts.nonneg_set; auto.
      rewrite (Hsame u (or_introl eq_refl)). exact Hge.
    + apply DictFacts.nonneg_set; auto. lia.
  - intros u' Hin.
    destruct (apply_update_other st u (name u') 0) as [Hget _].
    + intros Heq. apply Hnotin. rewrite Heq. now apply in_map.
    + rewrite Hget. apply Hsame. now right.
Qed.

(** When a batch names every account at most once and no stored balance is
    negative, no stored balance is negative after [execute_updates]. *)
Lemma execute_updates_nonneg (st : AccountState) (ups : list AccountUpdate) :
  NoDup (map name ups) ->
  Dict.nonneg st ->
  Dict.nonneg (fst (execute_updates st ups)).
Proof.
  intros Hnd Hst. unfold execute_updates.
  destruct (validate st ups) eqn:Hval; simpl; auto.
  now apply (apply_updates_nonneg ups st st).
Qed.

(** ** Batches proposed by a transfer *)

Lemma updates_feasible_shape (t : Transaction) (st : AccountState)
  (ups : list AccountUpdate) :
  updates t st = (ups, true) ->
  exists from_acc to_acc value,
    t = Transfer from_acc to_acc value
    /\ value <= Dict.get st from_acc 0
    /\ ups = [mkAccountUpdate from_acc (- value); mkAccountUpdate to_acc value].
Proof.
  destruct t as [f t v]. unfold updates. simpl.
  destruct (Z.ltb_spec (Dict.get st f 0) v) as [Hlt|Hge]; intros H.
  - discriminate.
  - inversion H. exists f, t, v. auto.
Qed.

Lemma updates_infeasible_empty (t : Transaction) (st : AccountState)
  (ups : list AccountUpdate) :
  updates t st = (ups, false) -> ups = [].
Proof.
  destruct t as [f t v]. unfold updates.
  destruct (balance (get_account st f) <? v); intros H; inversion H; reflexivity.
Qed.

Lemma validate_transfer_batch (st : AccountState) (f t : string) (v : Z) :
  validate st [mkAccountUpdate f (- v); mkAccountUpdate t v] = true ->
  0 <= Dict.get st f 0 - v /\ 0 <= Dict.get st t 0 + v.
Proof.
  intros H. apply validate_true_iff in H.
  inversion H as [|? ? H1 H']; subst. inversion H' as [|? ? H2 _]; subst.
  simpl in *. lia.
Qed.

(** The credit of a transfer batch, seen after the debit was applied. *)
Lemma mem_after_debit (st : AccountState) (f t : string) (v : Z) :
  Dict.mem (apply_update st (mkAccountUpdate f (- v))) t
  = if String.eqb f t then true else Dict.mem st t.
Proof.
  destruct (String.eqb_spec f t) as [->|Hne].
  - apply (apply_update_mem st (mkAccountUpdate t (- v))).
  - now apply (apply_update_other st (mkAccountUpdate f (- v)) t 0).
Qed.

Lemma transfer_batch_total (st : AccountState) (f t : string) (v : Z) :
  validate st [mkAccountUpdate f (- v); mkAccountUpdate t v] = true ->
  Dict.total (apply_updates st [mkAccountUpdate f (- v); mkAccountUpdate t v])
  = Dict.total st.
Proof.
  intros Hval. apply validate_transfer_batch in Hval. destruct Hval as [Hf Ht].
  unfold apply_updates. simpl.
  rewrite !apply_update_total. simpl name. simpl balance_change.
  rewrite mem_after_debit.
  destruct (Dict.mem st f) eqn:Ef.
  - destruct (String.eqb_spec f t) as [->|Hne]; [lia|].
    destruct (Dict.mem st t) eqn:Et; [lia|].
    rewrite (DictFacts.mem_false_get _ _ _ Et) in Ht. lia.
  - rewrite (DictFacts.mem_false_get _ _ _ Ef) in Hf.
    destruct (String.eqb_spec f t) as [->|Hne]; [lia|].
    destruct (Dict.mem st t) eqn:Et; [lia|].
    rewrite (DictFacts.mem_false_get _ _ _ Et) in Ht. lia.
Qed.

Lemma transfer_batch_nonneg (st : AccountState) (f t : string) (v : Z) :
  Dict.nonneg st ->
  validate st [mkAccountUpdate f (- v); mkAccountUpdate t v] = true ->
  Dict.nonneg (apply_updates st [mkAccountUpdate f (- v); mkAccountUpdate t v]).
Proof.
  intros Hst Hval. apply validate_transfer_batch in Hval. destruct Hval as [Hf Ht].
  unfold apply_updates. simpl.
  assert (Hmid : Dict.nonneg (apply_update st (mkAccountUpdate f (- v)))).
  { unfold apply_update. simpl.
    destruct (Dict.mem st f); apply DictFacts.nonneg_set; auto; lia. }
  unfold apply_update at 1. simpl name. simpl balance_change.
  destruct (Dict.mem (apply_update st (mkAccountUpdate f (- v))) t) eqn:Et;
    apply DictFacts.nonneg_set; auto; try lia.
  destruct (String.eqb_spec f t) as [->|Hne].
  - destruct (Dict.mem st t) eqn:Em.
    + pose proof (apply_update_existing st (mkAccountUpdate t (- v)) Em) as Hx.
      simpl in Hx. rewrite Hx.
      pose proof (DictFacts.nonneg_get st t 0 Hst (Z.le_refl 0)). lia.
    + pose proof (apply_update_missing st (mkAccountUpdate t (- v)) Em) as Hx.
      simpl in Hx. rewrite Hx. lia.
  - destruct (apply_update_other st (mkAccountUpdate f (- v)) t 0 Hne) as [-> _].
    exact Ht.
Qed.

(** C4: when a transfer's proposal is feasible (against whatever mapping it
    read) and its batch is applied by [execute_updates], the sum of the
    stored balances is the same after the call as before it.  No exception is
    needed: a batch that passes the first loop never creates an account
    from a negative delta. *)
Theorem transfer_conserves_total
  (t : Transaction) (seen st : AccountState) (ups : list AccountUpdate) :
  updates t seen = (ups, true) ->
  validate st ups = true ->
  Dict.total (fst (execute_updates st ups)) = Dict.total st.
Proof.
  intros Hprop Hval.
  destruct (updates_feasible_shape _ _ _ Hprop) as (f & d & v & _ & _ & ->).
  rewrite (execute_updates_valid _ _ Hval).
  now apply transfer_batch_total.
Qed.

Lemma transfer_conserves_total_witness :
  updates (Transfer "A" "C" 4) funded_ledger
  = ([mkAccountUpdate "A" (-4); mkAccountUpdate "C" 4], true)
  /\ validate funded_ledger [mkAccountUpdate "A" (-4); mkAccountUpdate "C" 4] = true
  /\ Dict.total (fst (execute_updates funded_ledger
                        [mkAccountUpdate "A" (-4); mkAccountUpdate "C" 4]))
     = Dict.total funded_ledger.
Proof.
  split; [reflexivity | split; [reflexivity |]].
  apply (transfer_conserves_total (Transfer "A" "C" 4) funded_ledger funded_ledger).
  - reflexivity.
  - reflexivity.
Defined.

(** ** The second loop, one update at a time *)

Lemma apply_update_keeps_accounts (st : AccountState) (u : AccountUpdate) (k : string) :
  Dict.mem st k = true -> Dict.mem (apply_update st u) k = true.
Proof.
  intros H. destruct (String.eqb_spec (name u) k) as [<-|Hne].
  - apply apply_update_mem.
  - now destruct (apply_update_other st u k 0 Hne) as [_ ->].
Qed.






(** ** Order of the accounts *)

Lemma mem_existsb (d : Dict.t) (k : string) :
  Dict.mem d k = existsb (fun y => String.eqb y k) (Dict.keys d).
Proof.
  induction d as [|[k' v'] rest IH]; simpl; auto.
  destruct (String.eqb k' k); auto.
Qed.

Lemma dict_of_values_keys_from (values : list AccountValue) :
  forall d : Dict.t,
    Dict.keys (fold_left (fun d av => Dict.set d (value_name av) (balance av)) values d)
    = Dict.keys d ++ first_occurrences (Dict.keys d) (map value_name values).
Proof.
  induction values as [|av rest IH]; intros d; simpl.
  - now rewrite app_nil_r.
  - rewrite IH, DictFacts.keys_set, <- mem_existsb.
    destruct (Dict.mem d (value_name av)); auto.
    now rewrite <- app_assoc.
Qed.

Lemma dict_of_values_keys (values : list AccountValue) :
  Dict.keys (dict_of_values values) = first_occurrences [] (map value_name values).
Proof. unfold dict_of_values. now rewrite dict_of_values_keys_from. Qed.

Lemma values_of_dict_names (d : Dict.t) :
  map value_name (values_of_dict d) = Dict.keys d.
Proof.
  unfold values_of_dict, Dict.items, Dict.keys. rewrite map_map. reflexivity.
Qed.

Lemma apply_updates_keys (ups : list AccountUpdate) :
  forall st : AccountState,
    Dict.keys (apply_updates st ups) = Dict.keys st ++ created_by_updates st ups.
Proof.
  unfold apply_updates.
  induction ups as [|u rest IH]; intros st; simpl.
  - now rewrite app_nil_r.
  - rewrite IH, apply_update_keys. now rewrite <- app_assoc.
Qed.

Lemma step_keys (p : Pool) (i : nat) :
  Dict.keys (state (step p i)) = Dict.keys (state p) ++ created_by_step p i.
Proof.
  unfold step, created_by_step.
  destruct (nth_error (tasks p) i) as [[t|ups|]|]; simpl;
    try now rewrite app_nil_r.
  - destruct (updates t (state p)); simpl. now rewrite app_nil_r.
  - unfold execute_updates. destruct (validate (state p) ups); simpl.
    + apply apply_updates_keys.
    + now rewrite app_nil_r.
Qed.

Lemma run_keys (schedule : list nat) :
  forall p : Pool,
    Dict.keys (state (run p schedule))
    = Dict.keys (state p) ++ created_by_run p schedule.
Proof.
  unfold run.
  induction schedule as [|i rest IH]; intros p; simpl.
  - now rewrite app_nil_r.
  - rewrite IH, step_keys. now rewrite <- app_assoc.
Qed.

(** A dictionary lists each key once. *)
Lemma set_keys_NoDup (d : Dict.t) (k : string) (v : Z) :
  NoDup (Dict.keys d) -> NoDup (Dict.keys (Dict.set d k v)).
Proof.
  intros H. rewrite DictFacts.keys_set.
  destruct (Dict.mem d k) eqn:E; auto.
  apply NoDup_app; [assumption | repeat constructor; auto |].
  intros x Hx [<-|[]]. apply DictFacts.mem_keys in Hx. congruence.
Qed.

Lemma dict_of_values_NoDup (values : list AccountValue) :
  NoDup (Dict.keys (dict_of_values values)).
Proof.
  unfold dict_of_values.
  assert (H : NoDup (Dict.keys [])) by constructor.
  revert H. generalize (@nil (string * Z)).
  induction values as [|av rest IH]; intros d H; simpl; auto.
  apply IH. now apply set_keys_NoDup.
Qed.

Lemma apply_updates_NoDup (ups : list AccountUpdate) :
  forall st : AccountState,
    NoDup (Dict.keys st) -> NoDup (Dict.keys (apply_updates st ups)).
Proof.
  unfold apply_updates.
  induction ups as [|u rest IH]; intros st H; simpl; auto.
  apply IH. unfold apply_update.
  destruct (Dict.mem st (name u)); now apply set_keys_NoDup.
Qed.

Lemma step_NoDup (p : Pool) (i : nat) :
  NoDup (Dict.keys (state p)) -> NoDup (Dict.keys (state (step p i))).
Proof.
  intros H. unfold step.
  destruct (nth_error (tasks p) i) as [[t|ups|]|]; simpl; auto.
  - destruct (updates t (state p)); auto.
  - unfold execute_updates. destruct (validate (state p) ups); simpl; auto.
    now apply apply_updates_NoDup.
Qed.

Lemma run_NoDup (schedule : list nat) :
  forall p : Pool,
    NoDup (Dict.keys (state p)) -> NoDup (Dict.keys (state (run p schedule))).
Proof.
  unfold run.
  induction schedule as [|i rest IH]; intros p H; simpl; auto.
  apply IH. now apply step_NoDup.
Qed.

(** ** The schedule that follows the block *)

Lemma step_twice_in_place (st : AccountState) (done rest : list Task) (t : Transaction) :
  step (step (mkPool st (done ++ Pending t :: rest)) (List.length done))
       (List.length done)
  = mkPool (process_transaction st t) (done ++ Finished :: rest).
Proof.
  unfold step at 2. simpl. rewrite nth_error_middle.
  unfold process_transaction.
  destruct (updates t st) as [ups [|]]; rewrite set_task_middle;
    unfold step; simpl; rewrite nth_error_middle.
  - now rewrite set_task_middle.
  - reflexivity.
Qed.

Lemma run_in_order_from (block : Block) :
  forall (st : AccountState) (done : list Task),
    run (mkPool st (done ++ map Pending block))
        (flat_map (fun i => [i; i]) (seq (List.length done) (List.length block)))
    = mkPool (fold_left process_transaction block st)
             (done ++ map (fun _ => Finished) block).
Proof.
  unfold run.
  induction block as [|t rest IH]; intros st done; simpl.
  - reflexivity.
  - rewrite step_twice_in_place.
    specialize (IH (process_transaction st t) (done ++ [Finished])).
    rewrite length_app, Nat.add_comm in IH. simpl in IH.
    rewrite <- !app_assoc in IH. simpl in IH. exact IH.
Qed.

(** Under the schedule that follows the block every task ends, and the
    mapping is the one obtained by processing the transactions one after the
    other. *)
Lemma execute_block_in_order (block : Block) (values : list AccountValue) :
  execute_block (in_order (List.length block)) block values
  = Some (values_of_dict (fold_left process_transaction block (dict_of_values values))).
Proof.
  unfold execute_block, start, in_order.
  pose proof (run_in_order_from block (dict_of_values values) []) as H.
  simpl in H. rewrite H. unfold all_finished. simpl.
  replace (forallb is_finished (map (fun _ : Transaction => Finished) block))
    with true; [reflexivity|].
  symmetry. apply forallb_forall. intros x Hx.
  apply in_map_iff in Hx. destruct Hx as (? & <- & _). reflexivity.
Qed.

(** C9: [execute_block] has a result (the schedule that follows the block
    gives one), and under every schedule the names of the result are the
    names given at construction, in input order and each at its first
    occurrence, followed by the names of the accounts created during the
    run, in the order of their creation; no name is listed twice. *)
Theorem execute_block_result_order (block : Block) (values : list AccountValue) :
  (exists result : list AccountValue,
      execute_block (in_order (List.length block)) block values = Some result)
  /\ forall (schedule : list nat) (result : list AccountValue),
       execute_block schedule block values = Some result ->
       map value_name result
       = first_occurrences [] (map value_name values)
         ++ created_by_run (start block values) schedule
       /\ NoDup (map value_name result).
Proof.
  split.
  - eexists. apply execute_block_in_order.
  - intros schedule result. unfold execute_block.
    destruct (all_finished (run (start block values) schedule)); [|discriminate].
    intros H. inversion H; subst result. clear H.
    rewrite values_of_dict_names. split.
    + rewrite run_keys. simpl. now rewrite dict_of_values_keys.
    + apply run_NoDup. simpl. apply dict_of_values_NoDup.
Qed.

Lemma execute_block_result_order_witness :
  execute_block second_first block_new_accounts account_values_example_1
  = Some [mkAccountValue "A" 15; mkAccountValue "B" 29; mkAccountValue "C" 40;
          mkAccountValue "E" 1; mkAccountValue "D" 5]
  /\ ["A"; "B"; "C"; "E"; "D"]
     = first_occurrences [] (map value_name account_values_example_1)
       ++ created_by_run (start block_new_accounts account_values_example_1)
            second_first.
Proof.
  assert (H : execute_block second_first block_new_accounts account_values_example_1
              = Some [mkAccountValue "A" 15; mkAccountValue "B" 29;
                      mkAccountValue "C" 40; mkAccountValue "E" 1;
                      mkAccountValue "D" 5]) by reflexivity.
  split; [exact H|].
  exact (proj1 (proj2 (execute_block_result_order block_new_accounts
                         account_values_example_1) second_first _ H)).
Defined.

(** ** The first test case *)

(** C5 fails on the code: when the task of the third transfer takes the lock
    first, every task still runs to its end and the block leaves B with 5 and
    C with 70, which is not the expected output of the test. *)
Theorem scenario_A_depends_on_schedule :
  execute_block third_first block_example_1 account_values_example_1
  = Some [mkAccountValue "A" 15; mkAccountValue "B" 5; mkAccountValue "C" 70]
  /\ execute_block third_first block_example_1 account_values_example_1
     <> Some expected_output_1.
Proof. split; [reflexivity | discriminate]. Qed.

(** Under the schedule that follows the block the first test case gives its
    expected output. *)
Lemma scenario_A_in_order :
  execute_block (in_order 3) block_example_1 account_values_example_1
  = Some expected_output_1.
Proof. reflexivity. Qed.

(** ** Non-negative balances inside [execute_block]

    The batches that reach [execute_updates] from [process_transaction] are
    those of [Transfer.updates]; for them the first loop is enough, under
    every schedule. *)

Lemma set_task_ok (ts : list Task) (i : nat) (x : Task) :
  Forall task_ok ts -> task_ok x -> Forall task_ok (set_task ts i x).
Proof.
  intros H Hx. revert i.
  induction H as [|y rest Hy Hrest IH]; intros [|j]; simpl; auto.
Qed.

Lemma nth_error_task_ok (ts : list Task) (i : nat) (x : Task) :
  Forall task_ok ts -> nth_error ts i = Some x -> task_ok x.
Proof.
  intros H Hnth. apply nth_error_In in Hnth.
  rewrite Forall_forall in H. auto.
Qed.

Lemma step_ok (p : Pool) (i : nat) : pool_ok p -> pool_ok (step p i).
Proof.
  intros [Hst Hts]. unfold step.
  destruct (nth_error (tasks p) i) as [[t|ups|]|] eqn:E; try (split; assumption).
  - destruct (updates t (state p)) as [ups [|]] eqn:Eu; split; simpl; auto;
      apply set_task_ok; simpl; auto.
    destruct (updates_feasible_shape _ _ _ Eu) as (f & d & v & _ & _ & ->).
    now exists f, d, v.
  - split; simpl; [|apply set_task_ok; simpl; auto].
    destruct (nth_error_task_ok _ _ _ Hts E) as (f & d & v & ->).
    unfold execute_updates.
    destruct (validate (state p) _) eqn:Hval; simpl; auto.
    now apply transfer_batch_nonneg.
Qed.

Lemma run_ok (schedule : list nat) :
  forall p : Pool, pool_ok p -> pool_ok (run p schedule).
Proof.
  unfold run.
  induction schedule as [|i rest IH]; intros p H; simpl; auto using step_ok.
Qed.

Lemma dict_of_values_nonneg (values : list AccountValue) :
  Forall (fun av => 0 <= balance av) values -> Dict.nonneg (dict_of_values values).
Proof.
  unfold dict_of_values.
  assert (H : Dict.nonneg []) by constructor.
  revert H. generalize (@nil (string * Z)).
  induction values as [|av rest IH]; intros d Hd Hvs; simpl; auto.
  inversion Hvs; subst. apply IH; auto.
  now apply DictFacts.nonneg_set.
Qed.

(** Whatever the schedule, a block of transfers run on non-negative initial
    balances returns only non-negative balances. *)
Lemma execute_block_nonneg
  (schedule : list nat) (block : Block) (values result : list AccountValue) :
  Forall (fun av => 0 <= balance av) values ->
  execute_block schedule block values = Some result ->
  Forall (fun av => 0 <= balance av) result.
Proof.
  intros Hvs. unfold execute_block.
  destruct (all_finished _); [|discriminate].
  intros H. inversion H; subst result. clear H.
  assert (Hok : pool_ok (run (start block values) schedule)).
  { apply run_ok. split; simpl.
    - now apply dict_of_values_nonneg.
    - apply Forall_forall. intros x Hx.
      apply in_map_iff in Hx. destruct Hx as (? & <- & _). exact I. }
  destruct Hok as [Hst _]. unfold values_of_dict, Dict.items.
  apply Forall_map. exact Hst.
Qed.

(** ** What a batch does to each balance *)

Lemma apply_updates_frame (ups : list AccountUpdate) :
  forall (st : AccountState) (k : string) (x : Z),
    ~ In k (map name ups) ->
    Dict.get (apply_updates st ups) k x = Dict.get st k x
    /\ Dict.mem (apply_updates st ups) k = Dict.mem st k.
Proof.
  unfold apply_updates.
  induction ups as [|u rest IH]; intros st k x Hk; simpl; auto.
  simpl in Hk.
  destruct (IH (apply_update st u) k x) as [Hg Hm]; [tauto|].
  destruct (apply_update_other st u k x) as [Hg' Hm']; [tauto|].
  split; congruence.
Qed.

(** An account that a batch does not name is read the same before and after
    [execute_updates], and neither appears nor disappears. *)
Theorem execute_updates_frame
  (st : AccountState) (ups : list AccountUpdate) (k : string) :
  ~ In k (map name ups) ->
  get_account (fst (execute_updates st ups)) k = get_account st k
  /\ Dict.mem (fst (execute_updates st ups)) k = Dict.mem st k.
Proof.
  intros Hk. unfold execute_updates, get_account.
  destruct (validate st ups); simpl; auto.
  destruct (apply_updates_frame ups st k 0 Hk) as [-> ->]. auto.
Qed.

Lemma execute_updates_frame_witness :
  get_account (fst (execute_updates funded_ledger double_debit)) "B"
  = get_account funded_ledger "B"
  /\ Dict.mem (fst (execute_updates funded_ledger double_debit)) "Z"
     = Dict.mem funded_ledger "Z".
Proof.
  split.
  - apply (execute_updates_frame funded_ledger double_debit "B").
    simpl. intros [H|[H|[]]]; discriminate.
  - apply (execute_updates_frame funded_ledger double_debit "Z").
    simpl. intros [H|[H|[]]]; discriminate.
Defined.

(** After a successful validation an update of a missing account carries a
    non-negative delta, whatever the second loop has created meanwhile. *)
Lemma validated_missing_nonneg (st : AccountState) (ups : list AccountUpdate) :
  validate st ups = true ->
  forall u, In u ups -> Dict.mem st (name u) = false -> 0 <= balance_change u.
Proof.
  intros Hval u Hin Hmem. apply validate_true_iff in Hval.
  rewrite Forall_forall in Hval. specialize (Hval u Hin).
  rewrite (DictFacts.mem_false_get _ _ _ Hmem) in Hval. lia.
Qed.

Lemma apply_update_balance (st : AccountState) (u : AccountUpdate) (k : string) :
  (Dict.mem st (name u) = false -> 0 <= balance_change u) ->
  Dict.get (apply_update st u) k 0
  = Dict.get st k 0 + (if String.eqb (name u) k then balance_change u else 0).
Proof.
  intros Hpos. destruct (String.eqb_spec (name u) k) as [<-|Hne].
  - destruct (Dict.mem st (name u)) eqn:E.
    + now apply apply_update_existing.
    + rewrite (apply_update_missing _ _ E), (DictFacts.mem_false_get _ _ _ E).
      specialize (Hpos eq_refl). lia.
  - destruct (apply_update_other st u k 0 Hne) as [-> _]. lia.
Qed.

Lemma apply_updates_balance (ups : list AccountUpdate) :
  forall (st : AccountState) (k : string),
    (forall u, In u ups -> Dict.mem st (name u) = false -> 0 <= balance_change u) ->
    Dict.get (apply_updates st ups) k 0 = Dict.get st k 0 + delta_for k ups.
Proof.
  unfold apply_updates.
  induction ups as [|u rest IH]; intros st k Hpos; simpl; [lia|].
  rewrite IH.
  - rewrite apply_update_balance; [lia|]. apply Hpos. now left.
  - intros u' Hin Hmem. apply Hpos; [now right|].
    destruct (Dict.mem st (name u')) eqn:E; auto.
    apply (apply_update_keeps_accounts st u) in E. congruence.
Qed.

Lemma apply_updates_total (ups : list AccountUpdate) :
  forall st : AccountState,
    (forall u, In u ups -> Dict.mem st (name u) = false -> 0 <= balance_change u) ->
    Dict.total (apply_updates st ups) = Dict.total st + delta_sum ups.
Proof.
  unfold apply_updates, delta_sum.
  induction ups as [|u rest IH]; intros st Hpos; simpl; [lia|].
  rewrite IH.
  - rewrite apply_update_total.
    destruct (Dict.mem st (name u)) eqn:E; [lia|].
    specialize (Hpos u (or_introl eq_refl) E). lia.
  - intros u' Hin Hmem. apply Hpos; [now right|].
    destruct (Dict.mem st (name u')) eqn:E; auto.
    apply (apply_update_keeps_accounts st u) in E. congruence.
Qed.

(** The balance read for any account after [execute_updates] is the balance
    read before plus every delta the batch holds for that account when the
    batch passed validation, and the balance read before when it did not. *)
Theorem execute_updates_balance
  (st : AccountState) (ups : list AccountUpdate) (k : string) :
  balance (get_account (fst (execute_updates st ups)) k)
  = balance (get_account st k)
    + (if validate st ups then delta_for k ups else 0).
Proof.
  unfold execute_updates, get_account. simpl.
  destruct (validate st ups) eqn:Hval; simpl; [|lia].
  apply apply_updates_balance. now apply validated_missing_nonneg.
Qed.

(** The sum of all stored balances after [execute_updates] is the sum before
    plus the sum of the deltas of the batch when the batch passed validation,
    and the sum before when it did not: an applied batch never loses value to
    the clamp at account creation. *)
Theorem execute_updates_total (st : AccountState) (ups : list AccountUpdate) :
  Dict.total (fst (execute_updates st ups))
  = Dict.total st + (if validate st ups then delta_sum ups else 0).
Proof.
  unfold execute_updates.
  destruct (validate st ups) eqn:Hval; simpl; [|lia].
  apply apply_updates_total. now apply validated_missing_nonneg.
Qed.

Lemma execute_updates_nonneg_witness :
  NoDup (map name [mkAccountUpdate "A" (-5); mkAccountUpdate "C" 2])
  /\ Dict.nonneg funded_ledger
  /\ Dict.nonneg (fst (execute_updates funded_ledger
                         [mkAccountUpdate "A" (-5); mkAccountUpdate "C" 2])).
Proof.
  assert (Hnd : NoDup (map name [mkAccountUpdate "A" (-5); mkAccountUpdate "C" 2])).
  { simpl. constructor.
    - intros [H|[]]. discriminate.
    - constructor; [intros [] | constructor]. }
  assert (Hst : Dict.nonneg funded_ledger).
  { apply DictFacts.nonnegb_spec. reflexivity. }
  split; [exact Hnd | split; [exact Hst |]].
  exact (execute_updates_nonneg funded_ledger _ Hnd Hst).
Defined.

(** ** Invariants of the pool under every schedule *)

Lemma step_tasks_ok (p : Pool) (i : nat) :
  Forall task_ok (tasks p) -> Forall task_ok (tasks (step p i)).
Proof.
  intros Hts. unfold step.
  destruct (nth_error (tasks p) i) as [[t|ups|]|] eqn:E; auto.
  - destruct (updates t (state p)) as [ups [|]] eqn:Eu; simpl;
      apply set_task_ok; simpl; auto.
    destruct (updates_feasible_shape _ _ _ Eu) as (f & d & v & _ & _ & ->).
    now exists f, d, v.
  - simpl. apply set_task_ok; simpl; auto.
Qed.

Lemma step_total (p : Pool) (i : nat) :
  Forall task_ok (tasks p) ->
  Dict.total (state (step p i)) = Dict.total (state p).
Proof.
  intros Hts. unfold step.
  destruct (nth_error (tasks p) i) as [[t|ups|]|] eqn:E; auto.
  - destruct (updates t (state p)) as [ups [|]]; reflexivity.
  - simpl. destruct (nth_error_task_ok _ _ _ Hts E) as (f & d & v & ->).
    unfold execute_updates.
    destruct (validate (state p) _) eqn:Hval; simpl; auto.
    now apply transfer_batch_total.
Qed.

Lemma run_total (schedule : list nat) :
  forall p : Pool,
    Forall task_ok (tasks p) ->
    Dict.total (state (run p schedule)) = Dict.total (state p).
Proof.
  unfold run.
  induction schedule as [|i rest IH]; intros p H; simpl; auto.
  rewrite IH by now apply step_tasks_ok. now apply step_total.
Qed.

Lemma start_tasks_ok (block : Block) (values : list AccountValue) :
  Forall task_ok (tasks (start block values)).
Proof.
  simpl. apply Forall_forall. intros x Hx.
  apply in_map_iff in Hx. destruct Hx as (? & <- & _). exact I.
Qed.

Lemma values_of_dict_total (d : Dict.t) :
  fold_right Z.add 0 (map balance (values_of_dict d)) = Dict.total d.
Proof.
  unfold values_of_dict, Dict.items, Dict.total. now rewrite map_map.
Qed.

(** A mapping built from values with distinct names lists exactly those
    values, in the same order. *)
Lemma set_missing (d : Dict.t) (k : string) (v : Z) :
  Dict.mem d k = false -> Dict.set d k v = d ++ [(k, v)].
Proof.
  induction d as [|[k' v'] rest IH]; simpl; auto.
  destruct (String.eqb k' k); [discriminate|]. intros H. now rewrite IH.
Qed.

Lemma dict_of_values_distinct_from (values : list AccountValue) :
  forall d : Dict.t,
    NoDup (Dict.keys d ++ map value_name values) ->
    values_of_dict
      (fold_left (fun d av => Dict.set d (value_name av) (balance av)) values d)
    = values_of_dict d ++ values.
Proof.
  induction values as [|[n b] rest IH]; intros d Hnd; simpl.
  - now rewrite app_nil_r.
  - assert (Hmem : Dict.mem d n = false).
    { destruct (Dict.mem d n) eqn:E; auto.
      apply DictFacts.mem_keys in E. apply NoDup_remove_2 in Hnd.
      exfalso. apply Hnd. apply in_or_app. now left. }
    rewrite (set_missing _ _ _ Hmem), IH.
    + unfold values_of_dict, Dict.items. rewrite map_app, <- app_assoc. reflexivity.
    + unfold Dict.keys. rewrite map_app, <- app_assoc. exact Hnd.
Qed.

Lemma values_of_dict_of_values (values : list AccountValue) :
  NoDup (map value_name values) ->
  values_of_dict (dict_of_values values) = values.
Proof.
  intros H. unfold dict_of_values.
  now rewrite dict_of_values_distinct_from.
Qed.

(** Under every schedule that runs the block to its end, the balances that
    [execute_block] returns add up to the sum of the initial balances (the
    names of the initial values being distinct): a block of transfers neither
    creates nor destroys value. *)
Theorem execute_block_conserves_total
  (schedule : list nat) (block : Block) (values result : list AccountValue) :
  NoDup (map value_name values) ->
  execute_block schedule block values = Some result ->
  fold_right Z.add 0 (map balance result)
  = fold_right Z.add 0 (map balance values).
Proof.
  intros Hnd. unfold execute_block.
  destruct (all_finished _); [|discriminate].
  intros H. inversion H; subst result. clear H.
  rewrite values_of_dict_total, run_total by apply start_tasks_ok.
  simpl. rewrite <- values_of_dict_total.
  now rewrite values_of_dict_of_values.
Qed.

Lemma example_1_names_distinct : NoDup (map value_name account_values_example_1).
Proof.
  simpl. repeat constructor; simpl; intros H;
    repeat (destruct H as [H|H]; [discriminate|]); exact H.
Defined.

Lemma execute_block_conserves_total_witness :
  execute_block third_first block_example_1 account_values_example_1
  = Some [mkAccountValue "A" 15; mkAccountValue "B" 5; mkAccountValue "C" 70]
  /\ 15 + (5 + (70 + 0)) = 20 + (30 + (40 + 0)).
Proof.
  split; [reflexivity|].
  exact (execute_block_conserves_total third_first block_example_1
           account_values_example_1 _ example_1_names_distinct eq_refl).
Defined.

Lemma execute_block_nonneg_witness :
  Forall (fun av => 0 <= balance av) account_values_example_1
  /\ Forall (fun av => 0 <= balance av)
       [mkAccountValue "A" 15; mkAccountValue "B" 5; mkAccountValue "C" 70].
Proof.
  assert (H : Forall (fun av => 0 <= balance av) account_values_example_1).
  { repeat constructor; simpl; lia. }
  split; [exact H|].
  exact (execute_block_nonneg third_first block_example_1
           account_values_example_1 _ H eq_refl).
Defined.

(** ** Construction of the mapping *)

Lemma fold_set_untouched (values : list AccountValue) (k : string) :
  forall d : Dict.t,
    ~ In k (map value_name values) ->
    Dict.get (fold_left (fun d av => Dict.set d (value_name av) (balance av)) values d) k 0
    = Dict.get d k 0.
Proof.
  induction values as [|av rest IH]; intros d Hk; simpl; auto.
  simpl in Hk. rewrite IH by tauto.
  apply DictFacts.get_set_other. tauto.
Qed.

(** When the initial values give a name more than once, the balance stored
    for it is the one of its last occurrence. *)
Theorem dict_of_values_last_wins
  (pre rest : list AccountValue) (av : AccountValue) :
  ~ In (value_name av) (map value_name rest) ->
  get_account (dict_of_values (pre ++ av :: rest)) (value_name av) = av.
Proof.
  intros Hk. unfold dict_of_values, get_account.
  rewrite fold_left_app. simpl.
  rewrite fold_set_untouched by assumption.
  rewrite DictFacts.get_set_same. now destruct av.
Qed.

Lemma dict_of_values_last_wins_witness :
  get_account
    (dict_of_values ([mkAccountValue "A" 1; mkAccountValue "B" 2]
                       ++ mkAccountValue "A" 7 :: [mkAccountValue "C" 3]))
    "A"
  = mkAccountValue "A" 7.
Proof.
  apply (dict_of_values_last_wins [mkAccountValue "A" 1; mkAccountValue "B" 2]
           [mkAccountValue "C" 3] (mkAccountValue "A" 7)).
  simpl. intros [H|[]]. discriminate.
Defined.

Lemma run_no_tasks (schedule : list nat) (st : AccountState) :
  run (mkPool st []) schedule = mkPool st [].
Proof.
  unfold run. induction schedule as [|i rest IH]; simpl; auto.
  unfold step at 2. simpl. now destruct i.
Qed.

(** With an empty block and initial values of distinct names,
    [execute_block] returns the initial values as they were given, under
    every schedule. *)
Theorem execute_block_empty (schedule : list nat) (values : list AccountValue) :
  NoDup (map value_name values) ->
  execute_block schedule [] values = Some values.
Proof.
  intros Hnd. unfold execute_block, start. simpl.
  rewrite run_no_tasks. simpl.
  now rewrite values_of_dict_of_values.
Qed.

Lemma execute_block_empty_witness :
  execute_block [0; 3]%nat [] account_values_example_1
  = Some account_values_example_1.
Proof.
  exact (execute_block_empty [0; 3]%nat account_values_example_1
           example_1_names_distinct).
Defined.

(** ** Every run can be brought to its end *)

Lemma set_task_length (ts : list Task) (i : nat) (x : Task) :
  List.length (set_task ts i x) = List.length ts.
Proof.
  revert i. induction ts as [|y rest IH]; intros [|j]; simpl; auto.
Qed.

Lemma step_tasks_length (p : Pool) (i : nat) :
  List.length (tasks (step p i)) = List.length (tasks p).
Proof.
  unfold step.
  destruct (nth_error (tasks p) i) as [[t|ups|]|]; auto.
  - destruct (updates t (state p)) as [ups success]. simpl. apply set_task_length.
  - simpl. apply set_task_length.
Qed.

Lemma run_tasks_length (schedule : list nat) :
  forall p : Pool, List.length (tasks (run p schedule)) = List.length (tasks p).
Proof.
  unfold run.
  induction schedule as [|i rest IH]; intros p; simpl; auto.
  now rewrite IH, step_tasks_length.
Qed.

(** Two critical sections end a task, whatever state it was in. *)
Lemma step_twice_finishes (st : AccountState) (done rest : list Task) (x : Task) :
  exists st' : AccountState,
    step (step (mkPool st (done ++ x :: rest)) (List.length done))
         (List.length done)
    = mkPool st' (done ++ Finished :: rest).
Proof.
  destruct x as [t|ups|].
  - eexists. apply step_twice_in_place.
  - eexists. unfold step at 2. simpl. rewrite nth_error_middle, set_task_middle.
    unfold step. simpl. rewrite nth_error_middle. reflexivity.
  - exists st. unfold step at 2. simpl. rewrite nth_error_middle.
    unfold step. simpl. rewrite nth_error_middle. reflexivity.
Qed.

Lemma run_in_order_finishes (rest : list Task) :
  forall (st : AccountState) (done : list Task),
  exists st' : AccountState,
    run (mkPool st (done ++ rest))
        (flat_map (fun i => [i; i]) (seq (List.length done) (List.length rest)))
    = mkPool st' (done ++ map (fun _ => Finished) rest).
Proof.
  unfold run.
  induction rest as [|x rest IH]; intros st done; simpl.
  - now exists st.
  - destruct (step_twice_finishes st done rest x) as [st1 ->].
    destruct (IH st1 (done ++ [Finished])) as [st2 H].
    rewrite length_app, Nat.add_comm in H. simpl in H.
    rewrite <- !app_assoc in H. simpl in H. now exists st2.
Qed.

(** No task can be stopped from ending: after any schedule whatsoever,
    letting every task take the lock twice more runs the block to its end, so
    [execute_block] has a result. *)
Theorem execute_block_can_finish
  (schedule : list nat) (block : Block) (values : list AccountValue) :
  exists result : list AccountValue,
    execute_block (schedule ++ in_order (List.length block)) block values
    = Some result.
Proof.
  unfold execute_block, run. rewrite fold_left_app.
  fold (run (start block values) schedule).
  remember (run (start block values) schedule) as p eqn:Hp.
  assert (Hlen : List.length (tasks p) = List.length block).
  { subst p. rewrite run_tasks_length. simpl. apply length_map. }
  destruct p as [st ts]. simpl in Hlen.
  destruct (run_in_order_finishes ts st []) as [st' H].
  simpl in H. unfold run in H. unfold in_order. rewrite <- Hlen, H.
  unfold all_finished. simpl.
  replace (forallb is_finished (map (fun _ : Task => Finished) ts)) with true.
  - eexists. reflexivity.
  - symmetry. apply forallb_forall. intros x Hx.
    apply in_map_iff in Hx. destruct Hx as (? & <- & _). reflexivity.
Qed.

(** ** One transfer *)

Lemma execute_updates_get (st : AccountState) (ups : list AccountUpdate) (k : string) :
  Dict.get (fst (execute_updates st ups)) k 0
  = Dict.get st k 0 + (if validate st ups then delta_for k ups else 0).
Proof.
  unfold execute_updates.
  destruct (validate st ups) eqn:Hval; simpl; [|lia].
  apply apply_updates_balance. now apply validated_missing_nonneg.
Qed.

Lemma process_transaction_unfold (st : AccountState) (f t : string) (v : Z) :
  process_transaction st (Transfer f t v)
  = if Dict.get st f 0 <? v then st
    else fst (execute_updates st [mkAccountUpdate f (- v); mkAccountUpdate t v]).
Proof.
  unfold process_transaction, updates. simpl.
  now destruct (Dict.get st f 0 <? v).
Qed.

Lemma validate_transfer_batch_iff (st : AccountState) (f t : string) (v : Z) :
  validate st [mkAccountUpdate f (- v); mkAccountUpdate t v] = true
  <-> 0 <= Dict.get st f 0 - v /\ 0 <= Dict.get st t 0 + v.
Proof.
  split.
  - apply validate_transfer_batch.
  - intros [Hf Ht]. apply validate_true_iff.
    repeat constructor; simpl; lia.
Qed.

(** A transfer from an account to itself never changes the balance read for
    any account, whatever the amount. *)
Theorem self_transfer_keeps_balances
  (st : AccountState) (acc : string) (value : Z) (k : string) :
  get_account (process_transaction st (Transfer acc acc value)) k
  = get_account st k.
Proof.
  rewrite process_transaction_unfold. unfold get_account.
  destruct (Dict.get st acc 0 <? value); auto.
  rewrite execute_updates_get. f_equal.
  destruct (validate st _); simpl; [|lia].
  destruct (String.eqb acc k); lia.
Qed.

(** ** Amounts that are negative or zero *)






(** ** test_case *)

Lemma skipn_nth_error {A : Type} (l : list A) :
  forall (n : nat) (x : A),
    nth_error l n = Some x -> skipn n l = x :: skipn (S n) l.
Proof.
  induction l as [|y rest IH]; intros [|n] x H; simpl in *; try discriminate.
  - now inversion H.
  - now apply IH.
Qed.

Lemma skipn_nth_error_none {A : Type} (l : list A) :
  forall n : nat, nth_error l n = None -> skipn n l = [].
Proof.
  induction l as [|y rest IH]; intros [|n] H; simpl in *; auto; discriminate.
Qed.

Lemma same_value_iff (a e : AccountValue) :
  String.eqb (value_name a) (value_name e) = true
  /\ (balance a =? balance e) = true
  <-> a = e.
Proof.
  destruct a as [an ab], e as [en eb]. simpl.
  rewrite String.eqb_eq, Z.eqb_eq. split.
  - intros [-> ->]. reflexivity.
  - intros H. inversion H. auto.
Qed.

Lemma check_from_passed (actual : list AccountValue) :
  forall (n : nat) (expected : list AccountValue),
    check_from n actual expected = Passed
    <-> exists extra, skipn n expected = actual ++ extra.
Proof.
  induction actual as [|a rest IH]; intros n expected; simpl.
  - split; eauto.
  - destruct (nth_error expected n) as [e|] eqn:E.
    + rewrite (skipn_nth_error _ _ _ E).
      destruct (String.eqb (value_name a) (value_name e)) eqn:En;
        [destruct (balance a =? balance e) eqn:Eb|].
      * assert (Hae : a = e) by (apply same_value_iff; auto). subst e.
        rewrite IH. split; intros [extra H]; exists extra.
        -- rewrite H. reflexivity.
        -- change ((a :: rest) ++ extra) with (a :: (rest ++ extra)) in H.
           now inversion H.
      * split; [discriminate|]. intros [extra H]. inversion H; subst.
        rewrite Z.eqb_refl in Eb. discriminate.
      * split; [discriminate|]. intros [extra H]. inversion H; subst.
        rewrite String.eqb_refl in En. discriminate.
    + rewrite (skipn_nth_error_none _ _ E). split; [discriminate|].
      intros [extra H]. discriminate.
Qed.

Lemma check_from_index_error (actual : list AccountValue) :
  forall (n : nat) (expected : list AccountValue),
    check_from n actual expected = IndexError
    <-> exists x extra, actual = skipn n expected ++ x :: extra.
Proof.
  induction actual as [|a rest IH]; intros n expected; simpl.
  - split; [discriminate|]. intros (x & extra & H).
    destruct (skipn n expected); discriminate.
  - destruct (nth_error expected n) as [e|] eqn:E.
    + rewrite (skipn_nth_error _ _ _ E).
      destruct (String.eqb (value_name a) (value_name e)) eqn:En;
        [destruct (balance a =? balance e) eqn:Eb|].
      * assert (Hae : a = e) by (apply same_value_iff; auto). subst e.
        rewrite IH. split; intros (x & extra & H); exists x, extra.
        -- rewrite H. reflexivity.
        -- change ((a :: skipn (S n) expected) ++ x :: extra)
             with (a :: (skipn (S n) expected ++ x :: extra)) in H.
           now inversion H.
      * split; [discriminate|]. intros (x & extra & H). inversion H; subst.
        rewrite Z.eqb_refl in Eb. discriminate.
      * split; [discriminate|]. intros (x & extra & H). inversion H; subst.
        rewrite String.eqb_refl in En. discriminate.
    + rewrite (skipn_nth_error_none _ _ E). split; [|reflexivity].
      intros _. exists a, rest. reflexivity.
Qed.

(** [test_case] returns without error exactly when the values returned by
    [execute_block] are an initial segment of the expected output: expected
    values beyond the length of the actual result are never looked at. *)
Theorem test_case_passes_iff_prefix
  (schedule : list nat) (blocks : Block)
  (account_values expected_output : list AccountValue) :
  test_case schedule blocks account_values expected_output = Some Passed
  <-> exists actual_results extra,
        execute_block schedule blocks account_values = Some actual_results
        /\ expected_output = actual_results ++ extra.
Proof.
  unfold test_case.
  destruct (execute_block schedule blocks account_values) as [actual|].
  - split.
    + intros H. inversion H as [H1]. apply check_from_passed in H1.
      destruct H1 as [extra H1]. simpl in H1. eauto.
    + intros (a & extra & Ha & He). inversion Ha; subst a.
      f_equal. apply check_from_passed. exists extra. exact He.
  - split; [discriminate|]. intros (a & extra & Ha & _). discriminate.
Qed.

(** [test_case] ends in an [IndexError], not in a failed [assert], exactly
    when the expected output is a proper initial segment of the values
    returned by [execute_block]. *)
Theorem test_case_index_error_iff_longer
  (schedule : list nat) (blocks : Block)
  (account_values expected_output : list AccountValue) :
  test_case schedule blocks account_values expected_output = Some IndexError
  <-> exists x extra,
        execute_block schedule blocks account_values
        = Some (expected_output ++ x :: extra).
Proof.
  unfold test_case.
  destruct (execute_block schedule blocks account_values) as [actual|].
  - split.
    + intros H. inversion H as [H1]. apply check_from_index_error in H1.
      destruct H1 as (x & extra & H1). simpl in H1. subst actual. eauto.
    + intros (x & extra & Ha). inversion Ha; subst actual.
      f_equal. apply check_from_index_error. exists x, extra. reflexivity.
  - split; [discriminate|]. intros (x & extra & Ha). discriminate.
Qed.

(** ** The second test case under every schedule *)

Lemma step_pools_B (p : Pool) (i : nat) :
  In p pools_B -> In (step p i) pools_B.
Proof.
  unfold pools_B. intros H.
  repeat (destruct H as [<-|H]; [|]); try contradiction;
    destruct i as [|[|[|i]]]; vm_compute; tauto.
Qed.

Lemma run_pools_B (schedule : list nat) :
  forall p : Pool, In p pools_B -> In (run p schedule) pools_B.
Proof.
  unfold run.
  induction schedule as [|i rest IH]; intros p H; simpl; auto.
  apply IH. now apply step_pools_B.
Qed.

Lemma finished_pools_B (p : Pool) :
  In p pools_B -> all_finished p = true -> state p = ledger_B true true.
Proof.
  unfold pools_B. intros H.
  repeat (destruct H as [<-|H]; [|]); try contradiction;
    vm_compute; intros E; try discriminate; reflexivity.
Qed.

(** The second test case does not depend on the schedule: its two transfers
    touch different accounts, and every schedule that runs the block to its
    end returns the expected output, so [test_case] passes. *)
Theorem scenario_B_every_schedule (schedule : list nat) (result : list AccountValue) :
  execute_block schedule block_example_2 account_values_example_2 = Some result ->
  result = expected_output_2
  /\ test_case schedule block_example_2 account_values_example_2 expected_output_2
     = Some Passed.
Proof.
  intros H. assert (Hres : result = expected_output_2).
  { revert H. unfold execute_block.
    destruct (all_finished _) eqn:Efin; [|discriminate].
    intros H. inversion H. clear H.
    assert (Hin : In (run (start block_example_2 account_values_example_2) schedule)
                    pools_B).
    { apply run_pools_B. left. reflexivity. }
    rewrite (finished_pools_B _ Hin Efin). reflexivity. }
  split; auto. unfold test_case. rewrite H, Hres. reflexivity.
Qed.

Lemma scenario_B_every_schedule_witness :
  execute_block [1; 0; 0; 1]%nat block_example_2 account_values_example_2
  = Some expected_output_2
  /\ test_case [1; 0; 0; 1]%nat block_example_2 account_values_example_2
       expected_output_2
     = Some Passed.
Proof.
  split; [reflexivity|].
  exact (proj2 (scenario_B_every_schedule [1; 0; 0; 1]%nat expected_output_2 eq_refl)).
Defined.

(** ** Where the names of the result come from *)

Lemma set_task_Forall (P : Task -> Prop) (ts : list Task) (i : nat) (x : Task) :
  Forall P ts -> P x -> Forall P (set_task ts i x).
Proof.
  intros H Hx. revert i.
  induction H as [|y rest Hy Hrest IH]; intros [|j]; simpl; auto.
Qed.

Lemma created_by_updates_incl (ups : list AccountUpdate) :
  forall st : AccountState, incl (created_by_updates st ups) (map name ups).
Proof.
  induction ups as [|u rest IH]; intros st; simpl.
  - apply incl_nil_l.
  - apply incl_app.
    + unfold created_by_update. destruct (Dict.mem st (name u)).
      * apply incl_nil_l.
      * intros k [<-|[]]. now left.
    + apply incl_tl. apply IH.
Qed.

Lemma first_occurrences_incl (l : list string) :
  forall seen : list string, incl (first_occurrences seen l) l.
Proof.
  induction l as [|x rest IH]; intros seen; simpl.
  - apply incl_nil_l.
  - destruct (existsb _ seen).
    + apply incl_tl. apply IH.
    + apply incl_cons; [now left|]. apply incl_tl. apply IH.
Qed.

Lemma step_names (allowed : list string) (p : Pool) (i : nat) :
  incl (Dict.keys (state p)) allowed ->
  Forall (fun x => incl (task_names x) allowed) (tasks p) ->
  incl (Dict.keys (state (step p i))) allowed
  /\ Forall (fun x => incl (task_names x) allowed) (tasks (step p i)).
Proof.
  intros Hkeys Hts. split.
  - rewrite step_keys. apply incl_app; auto.
    unfold created_by_step.
    destruct (nth_error (tasks p) i) as [[t|ups|]|] eqn:E;
      try apply incl_nil_l.
    destruct (validate (state p) ups); [|apply incl_nil_l].
    eapply incl_tran; [apply created_by_updates_incl|].
    rewrite Forall_forall in Hts.
    apply (Hts _ (nth_error_In _ _ E)).
  - unfold step.
    destruct (nth_error (tasks p) i) as [[t|ups|]|] eqn:E; auto.
    + rewrite Forall_forall in Hts.
      pose proof (Hts _ (nth_error_In _ _ E)) as Ht.
      destruct t as [f d v]. unfold updates.
      destruct (balance (get_account (state p) f) <? v); simpl;
        apply set_task_Forall; try (apply Forall_forall; assumption).
      * apply incl_nil_l.
      * exact Ht.
    + simpl. apply set_task_Forall; auto. apply incl_nil_l.
Qed.

Lemma run_names (allowed : list string) (schedule : list nat) :
  forall p : Pool,
    incl (Dict.keys (state p)) allowed ->
    Forall (fun x => incl (task_names x) allowed) (tasks p) ->
    incl (Dict.keys (state (run p schedule))) allowed.
Proof.
  unfold run.
  induction schedule as [|i rest IH]; intros p Hk Ht; simpl; auto.
  destruct (step_names allowed p i Hk Ht) as [Hk' Ht']. now apply IH.
Qed.

Lemma start_task_names (block : Block) :
  Forall (fun x => incl (task_names x) (block_names block)) (map Pending block).
Proof.
  induction block as [|[f d v] rest IH]; simpl; constructor.
  - simpl. intros k [<-|[<-|[]]]; simpl; auto.
  - eapply Forall_impl; [|exact IH].
    intros x Hx. simpl. now apply incl_tl, incl_tl.
Qed.

(** Under every schedule, each account that [execute_block] returns is named
    by one of the initial values or is the source or the destination of a
    transfer of the block. *)
Theorem execute_block_names_known
  (schedule : list nat) (block : Block) (values result : list AccountValue)
  (n : string) :
  execute_block schedule block values = Some result ->
  In n (map value_name result) ->
  In n (map value_name values) \/ In n (block_names block).
Proof.
  unfold execute_block.
  destruct (all_finished _); [|discriminate].
  intros H. inversion H; subst result. clear H.
  rewrite values_of_dict_names. intros Hin. apply in_app_or.
  revert n Hin.
  apply (run_names (map value_name values ++ block_names block)).
  - simpl. rewrite dict_of_values_keys.
    apply incl_appl. apply first_occurrences_incl.
  - simpl. eapply Forall_impl; [|apply start_task_names].
    intros x Hx. now apply incl_appr.
Qed.

Lemma execute_block_names_known_witness :
  In "E" (map value_name account_values_example_1)
  \/ In "E" (block_names block_new_accounts).
Proof.
  apply (execute_block_names_known second_first block_new_accounts
           account_values_example_1
           [mkAccountValue "A" 15; mkAccountValue "B" 29; mkAccountValue "C" 40;
            mkAccountValue "E" 1; mkAccountValue "D" 5] "E").
  - reflexivity.
  - simpl. auto 6.
Defined.

(** ** Transfers over different accounts *)

Lemma process_transaction_get (st : AccountState) (f d : string) (v : Z) (k : string) :
  Dict.get (process_transaction st (Transfer f d v)) k 0
  = Dict.get st k 0
    + (if (v <=? Dict.get st f 0) && (0 <=? Dict.get st d 0 + v)
       then delta_for k [mkAccountUpdate f (- v); mkAccountUpdate d v]
       else 0).
Proof.
  rewrite process_transaction_unfold.
  destruct (Z.ltb_spec (Dict.get st f 0) v) as [Hlt|Hge].
  - destruct (Z.leb_spec v (Dict.get st f 0)); [lia|]. simpl. lia.
  - rewrite execute_updates_get.
    destruct (Z.leb_spec v (Dict.get st f 0)); [|lia]. simpl andb.
    destruct (Z.leb_spec 0 (Dict.get st d 0 + v)) as [Hd|Hd].
    + replace (validate st _) with true; [reflexivity|].
      symmetry. apply validate_transfer_batch_iff. lia.
    + destruct (validate st _) eqn:Hval; [|reflexivity].
      apply validate_transfer_batch in Hval. lia.
Qed.

(** Two transfers that share no account can be processed in either order:
    the balance read for every account is the same afterwards. *)
Theorem disjoint_transfers_commute
  (st : AccountState) (f1 d1 f2 d2 : string) (v1 v2 : Z) (k : string) :
  f1 <> f2 -> f1 <> d2 -> d1 <> f2 -> d1 <> d2 ->
  get_account
    (process_transaction (process_transaction st (Transfer f1 d1 v1))
       (Transfer f2 d2 v2)) k
  = get_account
      (process_transaction (process_transaction st (Transfer f2 d2 v2))
         (Transfer f1 d1 v1)) k.
Proof.
  intros H12 H1d Hd2 Hdd. unfold get_account. f_equal.
  rewrite !process_transaction_get.
  simpl delta_for.
  apply String.eqb_neq in H12 as E12. apply String.eqb_neq in H1d as E1d.
  apply String.eqb_neq in Hd2 as Ed2. apply String.eqb_neq in Hdd as Edd.
  apply not_eq_sym, String.eqb_neq in H12. apply not_eq_sym, String.eqb_neq in H1d.
  apply not_eq_sym, String.eqb_neq in Hd2. apply not_eq_sym, String.eqb_neq in Hdd.
  rewrite E12, E1d, Ed2, Edd, H12, H1d, Hd2, Hdd.
  assert (Hzero : forall b : bool, (if b then 0 + (0 + 0) else 0) = 0)
    by (intros []; reflexivity).
  rewrite !Hzero, !Z.add_0_r.
  destruct ((v1 <=? Dict.get st f1 0) && (0 <=? Dict.get st d1 0 + v1));
    destruct ((v2 <=? Dict.get st f2 0) && (0 <=? Dict.get st d2 0 + v2));
    lia.
Qed.

Lemma disjoint_transfers_commute_witness :
  get_account
    (process_transaction (process_transaction funded_ledger (Transfer "A" "C" 2))
       (Transfer "B" "D" 1)) "D"
  = get_account
      (process_transaction (process_transaction funded_ledger (Transfer "B" "D" 1))
         (Transfer "A" "C" 2)) "D".
Proof.
  apply (disjoint_transfers_commute funded_ledger "A" "C" "B" "D" 2 1 "D");
    discriminate.
Defined.

(** ** A transfer as a task of the pool

    A task reads its source in one critical section and applies its batch in
    another; other tasks may take the lock in between.  The statements below
    are about each of the two steps on the mapping that the step meets. *)

Lemma step_pending (p : Pool) (i : nat) (f d : string) (v : Z) :
  nth_error (tasks p) i = Some (Pending (Transfer f d v)) ->
  step p i
  = mkPool (state p)
      (set_task (tasks p) i
         (if Dict.get (state p) f 0 <? v then Finished
          else Proposed [mkAccountUpdate f (- v); mkAccountUpdate d v])).
Proof.
  intros H. unfold step. rewrite H. unfold updates. simpl.
  now destruct (Dict.get (state p) f 0 <? v).
Qed.

Lemma step_proposed (p : Pool) (i : nat) (ups : list AccountUpdate) :
  nth_error (tasks p) i = Some (Proposed ups) ->
  step p i
  = mkPool (fst (execute_updates (state p) ups)) (set_task (tasks p) i Finished).
Proof. intros H. unfold step. now rewrite H. Qed.


(** The second critical section of a transfer between two different
    accounts, on whatever mapping it meets there: when the source then holds
    at least the amount and the destination's balance plus the amount is not
    negative, the step debits the source by the amount, credits the
    destination by it, creating the destination when it does not exist,
    leaves every other account as it was and ends the task.  The first
    critical section, which proposes the batch when the source read covers
    the amount, changes nothing. *)
Theorem transfer_task_moves_value
  (p q : Pool) (i : nat) (from_acc to_acc : string) (value : Z) :
  (nth_error (tasks p) i = Some (Pending (Transfer from_acc to_acc value)) ->
   value <= Dict.get (state p) from_acc 0 ->
   state (step p i) = state p
   /\ nth_error (tasks (step p i)) i
      = Some (Proposed [mkAccountUpdate from_acc (- value);
                        mkAccountUpdate to_acc value]))
  /\ (nth_error (tasks q) i
      = Some (Proposed [mkAccountUpdate from_acc (- value);
                        mkAccountUpdate to_acc value]) ->
      from_acc <> to_acc ->
      value <= Dict.get (state q) from_acc 0 ->
      0 <= Dict.get (state q) to_acc 0 + value ->
      balance (get_account (state (step q i)) from_acc)
      = balance (get_account (state q) from_acc) - value
      /\ balance (get_account (state (step q i)) to_acc)
         = balance (get_account (state q) to_acc) + value
      /\ Dict.mem (state (step q i)) to_acc = true
      /\ nth_error (tasks (step q i)) i = Some Finished
      /\ forall k : string, k <> from_acc -> k <> to_acc ->
           get_account (state (step q i)) k = get_account (state q) k
           /\ Dict.mem (state (step q i)) k = Dict.mem (state q) k).
Proof.
  split.
  - intros Hp Hcover. rewrite (step_pending _ _ _ _ _ Hp). simpl.
    destruct (Z.ltb_spec (Dict.get (state p) from_acc 0) value); [lia|].
    split; [reflexivity|]. eapply nth_error_set_task_same; eauto.
  - intros Hq Hne Hf Ht. rewrite (step_proposed _ _ _ Hq). simpl.
    assert (Hval : validate (state q) [mkAccountUpdate from_acc (- value);
                                       mkAccountUpdate to_acc value] = true).
    { apply validate_transfer_batch_iff. lia. }
    split; [|split; [|split; [|split]]].
    + rewrite execute_updates_get, Hval. simpl.
      rewrite String.eqb_refl.
      apply not_eq_sym, String.eqb_neq in Hne. rewrite Hne. lia.
    + rewrite execute_updates_get, Hval. simpl.
      rewrite String.eqb_refl.
      apply String.eqb_neq in Hne. rewrite Hne. lia.
    + rewrite (execute_updates_valid _ _ Hval).
      unfold apply_updates. simpl.
      apply (apply_update_mem _ (mkAccountUpdate to_acc value)).
    + eapply nth_error_set_task_same; eauto.
    + intros k Hkf Hkt. unfold get_account.
      assert (Hk : ~ In k (map name [mkAccountUpdate from_acc (- value);
                                     mkAccountUpdate to_acc value])).
      { simpl. intros [H|[H|[]]]; congruence. }
      rewrite (execute_updates_valid _ _ Hval).
      destruct (apply_updates_frame _ (state q) k 0 Hk) as [-> ->]. auto.
Qed.

Lemma transfer_task_moves_value_witness :
  (state (step pool_credit_between 0) = funded_ledger
   /\ nth_error (tasks (step pool_credit_between 0)) 0
      = Some (Proposed [mkAccountUpdate "A" (-4); mkAccountUpdate "N" 4]))
  /\ state (run pool_credit_between [0; 1; 1]%nat) = [("A", 6); ("B", 0)]
  /\ balance (get_account (state (step (run pool_credit_between [0; 1; 1]%nat) 0)) "A")
     = 6 - 4
  /\ balance (get_account (state (step (run pool_credit_between [0; 1; 1]%nat) 0)) "N")
     = 0 + 4
  /\ Dict.mem (state (step (run pool_credit_between [0; 1; 1]%nat) 0)) "N" = true.
Proof.
  destruct (transfer_task_moves_value pool_credit_between
              (run pool_credit_between [0; 1; 1]%nat) 0 "A" "N" 4)
    as [Hpropose Happly].
  split; [|split; [reflexivity|]].
  - apply Hpropose; [reflexivity | simpl; lia].
  - assert (Hne : "A" <> "N") by discriminate.
    assert (Hf : 4 <= Dict.get (state (run pool_credit_between [0; 1; 1]%nat)) "A" 0)
      by (simpl; lia).
    assert (Ht : 0 <= Dict.get (state (run pool_credit_between [0; 1; 1]%nat)) "N" 0 + 4)
      by (simpl; lia).
    destruct (Happly eq_refl Hne Hf Ht) as (H1 & H2 & H3 & _).
    split; [exact H1 | split; [exact H2 | exact H3]].
Defined.

(** A transfer task that changes nothing: its first critical section never
    changes the mapping, and ends the task when the source it reads holds
    less than the amount; its second critical section leaves the mapping
    exactly as it was, and ends the task, when on the mapping it then meets
    the source holds less than the amount or the destination's balance plus
    the amount would be negative. *)
Theorem transfer_task_dropped
  (p q : Pool) (i : nat) (from_acc to_acc : string) (value : Z) :
  (nth_error (tasks p) i = Some (Pending (Transfer from_acc to_acc value)) ->
   state (step p i) = state p
   /\ (Dict.get (state p) from_acc 0 < value ->
       nth_error (tasks (step p i)) i = Some Finished))
  /\ (nth_error (tasks q) i
      = Some (Proposed [mkAccountUpdate from_acc (- value);
                        mkAccountUpdate to_acc value]) ->
      Dict.get (state q) from_acc 0 < value
      \/ Dict.get (state q) to_acc 0 + value < 0 ->
      state (step q i) = state q
      /\ nth_error (tasks (step q i)) i = Some Finished).
Proof.
  split.
  - intros Hp. rewrite (step_pending _ _ _ _ _ Hp). simpl.
    split; [reflexivity|]. intros Hshort.
    destruct (Z.ltb_spec (Dict.get (state p) from_acc 0) value); [|lia].
    eapply nth_error_set_task_same; eauto.
  - intros Hq Hshort. rewrite (step_proposed _ _ _ Hq). simpl. split.
    + apply execute_updates_invalid.
      destruct (validate (state q) _) eqn:Hval; auto.
      apply validate_transfer_batch in Hval. lia.
    + eapply nth_error_set_task_same; eauto.
Qed.

Lemma transfer_task_dropped_witness :
  (state (step (run pool_double_spend [0; 0]%nat) 1) = [("A", 0); ("B", 5)]
   /\ nth_error (tasks (step (run pool_double_spend [0; 0]%nat) 1)) 1 = Some Finished)
  /\ state (run pool_double_spend [0; 1; 0]%nat) = [("A", 0); ("B", 5)]
  /\ state (step (run pool_double_spend [0; 1; 0]%nat) 1) = [("A", 0); ("B", 5)]
  /\ nth_error (tasks (step (run pool_double_spend [0; 1; 0]%nat) 1)) 1 = Some Finished.
Proof.
  split; [|split; [reflexivity|]].
  - destruct (proj1 (transfer_task_dropped (run pool_double_spend [0; 0]%nat)
                       pool_double_spend 1 "A" "C" 5) eq_refl) as [Hsame Hend].
    split; [exact Hsame | apply Hend; simpl; lia].
  - apply (proj2 (transfer_task_dropped pool_double_spend
                    (run pool_double_spend [0; 1; 0]%nat) 1 "A" "C" 5)).
    + reflexivity.
    + left. simpl. lia.
Defined.



(** A transfer of amount 0 whose source is unknown when it is read is
    proposed, not dropped.  Its second critical section, on whatever mapping
    it meets with no negative balance for source and destination, changes no
    balance read and makes both accounts exist: the source, when absent, is
    created with balance 0 at the end of the mapping, and after it the
    destination, when absent and another account. *)
Theorem zero_transfer_task_creates_accounts
  (p q : Pool) (i : nat) (from_acc to_acc : string) :
  (nth_error (tasks p) i = Some (Pending (Transfer from_acc to_acc 0)) ->
   Dict.mem (state p) from_acc = false ->
   state (step p i) = state p
   /\ nth_error (tasks (step p i)) i
      = Some (Proposed [mkAccountUpdate from_acc (- 0); mkAccountUpdate to_acc 0]))
  /\ (nth_error (tasks q) i
      = Some (Proposed [mkAccountUpdate from_acc (- 0); mkAccountUpdate to_acc 0]) ->
      0 <= Dict.get (state q) from_acc 0 ->
      0 <= Dict.get (state q) to_acc 0 ->
      Dict.keys (state (step q i))
      = Dict.keys (state q)
        ++ (if Dict.mem (state q) from_acc then [] else [from_acc])
        ++ (if String.eqb from_acc to_acc || Dict.mem (state q) to_acc
            then [] else [to_acc])
      /\ (forall k : string,
             get_account (state (step q i)) k = get_account (state q) k)
      /\ Dict.mem (state (step q i)) from_acc = true
      /\ Dict.mem (state (step q i)) to_acc = true).
Proof.
  split.
  - intros Hp Hmem. rewrite (step_pending _ _ _ _ _ Hp). simpl.
    rewrite (DictFacts.mem_false_get _ _ _ Hmem). simpl.
    split; [reflexivity|]. eapply nth_error_set_task_same; eauto.
  - intros Hq Hf Ht. rewrite (step_proposed _ _ _ Hq). simpl.
    assert (Hval : validate (state q) [mkAccountUpdate from_acc 0;
                                       mkAccountUpdate to_acc 0] = true).
    { apply (validate_transfer_batch_iff (state q) from_acc to_acc 0). lia. }
    pose proof (mem_after_debit (state q) from_acc to_acc 0) as Hm.
    simpl in Hm.
    split; [|split; [|split]].
    + rewrite (execute_updates_valid _ _ Hval), apply_updates_keys. simpl.
      unfold created_by_update. simpl. rewrite Hm.
      rewrite app_nil_r.
      destruct (String.eqb from_acc to_acc); simpl; [reflexivity|].
      destruct (Dict.mem (state q) to_acc); reflexivity.
    + intros k. unfold get_account. f_equal.
      rewrite execute_updates_get, Hval. simpl.
      destruct (String.eqb from_acc k); destruct (String.eqb to_acc k); lia.
    + rewrite (execute_updates_valid _ _ Hval). unfold apply_updates. simpl.
      apply apply_update_keeps_accounts.
      apply (apply_update_mem _ (mkAccountUpdate from_acc 0)).
    + rewrite (execute_updates_valid _ _ Hval). unfold apply_updates. simpl.
      apply (apply_update_mem _ (mkAccountUpdate to_acc 0)).
Qed.

Lemma zero_transfer_task_creates_accounts_witness :
  (state (step pool_zero_transfer 0) = funded_ledger
   /\ nth_error (tasks (step pool_zero_transfer 0)) 0
      = Some (Proposed [mkAccountUpdate "X" 0; mkAccountUpdate "Y" 0]))
  /\ Dict.keys (state (run pool_zero_transfer [0; 1; 1]%nat)) = ["A"; "B"; "Y"]
  /\ Dict.keys (state (step (run pool_zero_transfer [0; 1; 1]%nat) 0))
     = ["A"; "B"; "Y"; "X"]
  /\ get_account (state (step (run pool_zero_transfer [0; 1; 1]%nat) 0)) "Y"
     = mkAccountValue "Y" 2.
Proof.
  destruct (zero_transfer_task_creates_accounts pool_zero_transfer
              (run pool_zero_transfer [0; 1; 1]%nat) 0 "X" "Y")
    as [Hpropose Happly].
  split; [|split; [reflexivity|]].
  - apply Hpropose; reflexivity.
  - assert (Hf : 0 <= Dict.get (state (run pool_zero_transfer [0; 1; 1]%nat)) "X" 0)
      by (simpl; lia).
    assert (Ht : 0 <= Dict.get (state (run pool_zero_transfer [0; 1; 1]%nat)) "Y" 0)
      by (simpl; lia).
    destruct (Happly eq_refl Hf Ht) as (Hkeys & Hget & _).
    split; [exact Hkeys | exact (Hget "Y")].
Defined.
